(** * kjudge [models/generate]: the schema-driven model generator

    A shallow embedding of [models/generate/main.go].  Go strings are byte
    strings and are modelled by [string] (a list of 8-bit [ascii]); Go maps
    with string keys are modelled by stdpp's [gmap string _]; a slice
    expression that Go would reject with a run-time panic yields [None]. *)

From Stdlib Require Import ZArith Lia.
From Stdlib Require Import Strings.String Strings.Ascii.
From stdpp Require Import gmap strings list fin_maps sorting.

(** ** Characters used by the templates *)

(** The line feed, the double quote and the back quote, by their codes. *)
Definition LF : string := String "010"%char EmptyString.
Definition DQ : string := String "034"%char EmptyString.
Definition TICK : string := String "096"%char EmptyString.

(** [cat] glues the pieces of a text, as successive writes to a
    [strings.Builder] or to the output file do. *)
Definition cat (pieces : list string) : string :=
  foldr String.append EmptyString pieces.

(** ** Fragments of the Go [strings] package *)

Definition len (s : string) : Z := Z.of_nat (String.length s).

(** [s[:hi]]: Go panics unless [0 <= hi <= len(s)]. *)
Definition slice_to (s : string) (hi : Z) : option string :=
  if (0 <=? hi)%Z && (hi <=? len s)%Z
  then Some (String.substring 0 (Z.to_nat hi) s)
  else None.

(** [s[lo:]]: Go panics unless [0 <= lo <= len(s)]. *)
Definition slice_from (s : string) (lo : Z) : option string :=
  if (0 <=? lo)%Z && (lo <=? len s)%Z
  then Some (String.substring (Z.to_nat lo) (String.length s - Z.to_nat lo) s)
  else None.

(** [strings.HasSuffix]:
    [len(s) >= len(suffix) && s[len(s)-len(suffix):] == suffix]. *)
Definition strings_HasSuffix (s suffix : string) : bool :=
  (len suffix <=? len s)%Z &&
  match slice_from s (len s - len suffix) with
  | Some tail => String.eqb tail suffix
  | None => false
  end.

(** [strings.Split(s, sep)] for a one-byte separator: the segments between
    the occurrences of [sep]; a string without the separator (the empty
    string too) gives one segment. *)
Fixpoint strings_Split (s : string) (sep : ascii) : list string :=
  match s with
  | EmptyString => [EmptyString]
  | String c s' =>
      if Ascii.eqb c sep then EmptyString :: strings_Split s' sep
      else match strings_Split s' sep with
           | part :: parts => String c part :: parts
           | [] => [String c EmptyString]
           end
  end.

(** [strings.Join(elems, sep)]. *)
Definition strings_Join (elems : list string) (sep : string) : string :=
  String.concat sep elems.

(** [strings.Title] on ASCII text: a letter that follows a separator (or
    starts the string) is mapped to upper case.  Letters, digits and the
    underscore are not separators, every other ASCII byte is.  Bytes from
    128 on belong to multi-byte runes, which the identifiers of a schema do
    not use: Go decodes them, maps the runes with [unicode.ToTitle] and
    writes U+FFFD for a byte that is not part of a valid sequence, whereas
    here they are copied and do not separate words.  This is [strings.Title]
    on ASCII text only, and what is stated about the bytes of a title-cased
    text is stated for ASCII input. *)
Definition in_range (lo hi c : ascii) : bool :=
  (nat_of_ascii lo <=? nat_of_ascii c) &&
  (nat_of_ascii c <=? nat_of_ascii hi).

Definition isSeparator (r : ascii) : bool :=
  if nat_of_ascii r <=? 127 then
    if in_range "0" "9" r then false
    else if in_range "a" "z" r then false
    else if in_range "A" "Z" r then false
    else if Ascii.eqb r "_" then false
    else true
  else false.

Definition ToTitle (r : ascii) : ascii :=
  if in_range "a" "z" r then ascii_of_nat (nat_of_ascii r - 32) else r.

Fixpoint Title_from (prev : ascii) (s : string) : string :=
  match s with
  | EmptyString => EmptyString
  | String r s' =>
      String (if isSeparator prev then ToTitle r else r) (Title_from r s')
  end.

Definition strings_Title (s : string) : string := Title_from " " s.

(** ** Naming: [SnakeToGocase], [StructName], [ForeignKey] *)

(** The body of the loop of [SnakeToGocase] for the segment at index [i]:
    the first segment is kept when [export] is false; otherwise the segment
    [id] becomes [ID] and any other segment is title-cased. *)
Definition gocase_part (export : bool) (i : nat) (part : string) : string :=
  if (i =? 0) && negb export then part
  else if String.eqb part "id" then "ID"
  else strings_Title part.

(** [for i, part := range parts { ...; result.WriteString(part) }] *)
Fixpoint gocase_loop (export : bool) (i : nat) (parts : list string)
    (result : string) : string :=
  match parts with
  | [] => result
  | part :: rest =>
      gocase_loop export (S i) rest (result +:+ gocase_part export i part)
  end.

Definition SnakeToGocase (s : string) (export : bool) : string :=
  gocase_loop export 0 (strings_Split s "_") EmptyString.

(** [tableName[:len(tableName)-1]], then Go case. *)
Definition StructName (tableName : string) : option string :=
  match slice_to tableName (len tableName - 1) with
  | Some tableName' => Some (SnakeToGocase tableName' true)
  | None => None
  end.

(** [keyID[:len(keyID)-len("_id")]], then Go case. *)
Definition ForeignKey (keyID : string) : option string :=
  match slice_to keyID (len keyID - len "_id") with
  | Some keyID' => Some (SnakeToGocase keyID' true)
  | None => None
  end.

(** The template functions [param] and [field]. *)
Definition param (s : string) : string := SnakeToGocase s false.
Definition field (s : string) : string := SnakeToGocase s true.

(** ** Go maps and their iteration order *)

(** [TomlTable] is a map from column name to type, [TomlTables] a map from
    table name to table. *)
Abbreviation TomlTable := (gmap string string).
Abbreviation TomlTables := (gmap string (gmap string string)).

(** A [range] over a Go map visits every entry once, in an order that the
    language leaves unspecified.  A [MapOrder] is one such choice: for every
    map, some arrangement of its entries. *)
Record MapOrder : Type := {
  range_of : forall V : Type, gmap string V -> list (string * V);
  range_of_perm : forall (V : Type) (m : gmap string V),
    range_of V m ≡ₚ map_to_list m
}.
Arguments range_of _ {V} _.

(** Two orders that differ: the order of the underlying trie, and its
    reverse. *)
Definition trie_order : MapOrder :=
  {| range_of := fun V m => map_to_list m;
     range_of_perm := fun V m => reflexivity (map_to_list m) |}.

Definition reverse_order : MapOrder :=
  {| range_of := fun V m => reverse (map_to_list m);
     range_of_perm := fun V m => reverse_Permutation (map_to_list m) |}.

(** ** Clause builders *)

(** [for key := range k { v = append(v, key) }] and then
    [sort.Sort(sort.StringSlice(v))].  [sort.StringSlice] compares with
    Go's [<] on strings, the bytewise lexicographic order, whose reflexive
    closure is [String.le].  The keys of a map are distinct and a sorted
    arrangement of distinct keys is unique (lemma [sortKeys_columns]), so
    the sorting algorithm does not matter. *)
Definition sortKeys (o : MapOrder) (k : TomlTable) : list string :=
  merge_sort String.le ((range_of o k).*1).

(** The loop of [JoinCondition], with its [first] flag and its builder. *)
Fixpoint condition_loop (sep : string) (keys : list string) (first : bool)
    (s : string) : string :=
  match keys with
  | [] => s
  | key :: rest =>
      let s := if first then s else s +:+ sep in
      condition_loop sep rest false (s +:+ (key +:+ " = ?"))
  end.

Definition JoinCondition (o : MapOrder) (keys : TomlTable) (sep : string)
    : string :=
  condition_loop sep (sortKeys o keys) true EmptyString.

(** One element of the argument list, by the three cases of [structName]. *)
Definition argument (structName key : string) : string :=
  if String.eqb structName EmptyString then SnakeToGocase key false
  else if String.eqb structName "-" then key
  else structName +:+ "." +:+ SnakeToGocase key true.

Definition JoinArguments (o : MapOrder) (keys : TomlTable)
    (structName : string) : string :=
  strings_Join
    (fold_left (fun s key => s ++ [argument structName key])
       (sortKeys o keys) []) ", ".

(** [for range keys { s = append(s, "?") }] *)
Definition Marks (o : MapOrder) (keys : TomlTable) : string :=
  strings_Join (fold_left (fun s _ => s ++ ["?"]) (range_of o keys) []) ", ".

(** ** Tables and key inference *)

Record Table : Type := {
  Name : string;
  Upsert : bool;
  Fields : TomlTable;
  PrimaryKeys : TomlTable;
  ForeignKeys : TomlTable
}.

(** [FieldsWithoutID]: the fields other than [id], copied into a new map. *)
Definition FieldsWithoutID (o : MapOrder) (t : Table) : TomlTable :=
  fold_left
    (fun (res : TomlTable) '(field, typ) =>
       if String.eqb field "id" then res else <[field := typ]> res)
    (range_of o (Fields t)) ∅.

(** The guarded prefix [field[:len(field)-len("_id")]]: under
    [strings.HasSuffix(field, "_id")] the slice is in range (lemma
    [HasSuffix_slice_to] below). *)
Definition trim_id (field : string) : string :=
  String.substring 0 (String.length field - String.length "_id") field.

(** One step of the first loop of [TableFromToml], on the pair
    [(pks, fks)]. *)
Definition key_step (tables : TomlTables)
    (acc : TomlTable * TomlTable) (entry : string * string)
    : TomlTable * TomlTable :=
  let '(pks, fks) := acc in
  let '(field, typ) := entry in
  if strings_HasSuffix field "_id" then
    match tables !! (trim_id field +:+ "s") with
    | Some _ => (<[field := typ]> pks, <[field := typ]> fks)
    | None => (pks, fks)
    end
  else (pks, fks).

Definition TableFromToml (o : MapOrder) (tables : TomlTables) (name : string)
    (t : TomlTable) : Table :=
  let '(pks, fks) := fold_left (key_step tables) (range_of o t) (∅, ∅) in
  match t !! "id" with
  | Some v =>
      {| Name := name; Upsert := negb (String.eqb v "int"); Fields := t;
         PrimaryKeys := {[ "id" := v ]}; ForeignKeys := fks |}
  | None =>
      {| Name := name; Upsert := true; Fields := t;
         PrimaryKeys := pks; ForeignKeys := fks |}
  end.

(** ** Template execution *)

(** Executing a template writes text and may stop with an error: a
    function called by the template that panics ([StructName] or
    [ForeignKey] on a string too short to slice) makes [Execute] return an
    error, and the text written before it stays written.  [Tmpl A] is the
    text written together with the result, [None] after an error. *)
Definition Tmpl (A : Type) : Type := (string * option A)%type.

#[global] Instance Tmpl_ret : MRet Tmpl := fun A a => (EmptyString, Some a).

#[global] Instance Tmpl_bind : MBind Tmpl := fun A B f m =>
  match m with
  | (w, Some a) => let '(w', r) := f a in (w +:+ w', r)
  | (w, None) => (w, None)
  end.

(** Write a piece of text. *)
Definition emit (s : string) : Tmpl unit := (s, Some tt).

(** Call a template function; a panic is an execution error. *)
Definition call {A : Type} (r : option A) : Tmpl A := (EmptyString, r).

(** The body of a [range], once per element. *)
Fixpoint for_each {A : Type} (l : list A) (body : A -> Tmpl unit)
    : Tmpl unit :=
  match l with
  | [] => mret tt
  | x :: l' => body x ;; for_each l' body
  end.

(** [range $k, $v := m] of [text/template] visits a map in sorted key
    order. *)
Definition template_range (m : TomlTable) : list (string * string) :=
  merge_sort (fun a b => String.le a.1 b.1) (map_to_list m).

(** [index .Fields "id"]: the zero value for a missing key. *)
Definition index (m : TomlTable) (k : string) : string :=
  match m !! k with Some v => v | None => EmptyString end.

Definition UpsertTemplate (o : MapOrder) (t : Table) : Tmpl unit :=
  emit LF ;;
  name ← call (StructName (Name t));
  emit (cat [
    LF; LF;
    "// Write writes the change to the Database. ";
    "This happens as an UPSERT statement."; LF;
    "func (r *"; name; ") Write(db db.DBContext) error {"; LF;
    "    if err := r.Verify(); err != nil {"; LF;
    "        return err"; LF;
    "    }"; LF;
    "    _, err := db.Exec("; DQ; "INSERT INTO "; Name t;
    "("; JoinArguments o (Fields t) "-";
    ") VALUES ("; Marks o (Fields t);
    ") ON CONFLICT ("; JoinArguments o (PrimaryKeys t) "-";
    ") DO UPDATE SET "; JoinCondition o (Fields t) ", "; DQ; ","; LF;
    "                        "; JoinArguments o (Fields t) "r"; ", ";
    JoinArguments o (Fields t) "r"; ")"; LF;
    "    return errors.WithStack(err)"; LF;
    "}"; LF ]).

Definition UpdateOrInsertTemplate (o : MapOrder) (t : Table) : Tmpl unit :=
  emit LF ;;
  name ← call (StructName (Name t));
  emit (cat [
    LF; LF;
    "// Write writes the change to the Database."; LF;
    "// If the ID of the "; name;
    " is 0, then an INSERT is performed. Else, an UPDATE is triggered."; LF;
    "func (r *"; name; ") Write(db db.DBContext) error {"; LF;
    "    if err := r.Verify(); err != nil {"; LF;
    "        return err"; LF;
    "    }"; LF;
    "    " ]) ;;
  (if String.eqb (index (Fields t) "id") "int" then
     let fields := FieldsWithoutID o t in
     emit (cat [
       LF;
       "    if r.ID == 0 {"; LF;
       "        "; LF;
       "        res, err := db.Exec("; DQ; "INSERT INTO "; Name t;
       "("; JoinArguments o fields "-";
       ") VALUES ("; Marks o fields; ")"; DQ; ", ";
       JoinArguments o fields "r"; ")"; LF;
       "        if err != nil {"; LF;
       "            return errors.WithStack(err)"; LF;
       "        }"; LF;
       "        id, err := res.LastInsertId()"; LF;
       "        if err != nil {"; LF;
       "            return errors.WithStack(err)"; LF;
       "        }"; LF;
       "        r.ID = int(id)"; LF;
       "        return nil"; LF;
       "    }"; LF;
       "    " ])
   else mret tt) ;;
  emit (cat [
    LF;
    "    _, err := db.Exec("; DQ; "UPDATE "; Name t;
    " SET "; JoinCondition o (Fields t) ", ";
    " WHERE "; JoinCondition o (PrimaryKeys t) " AND "; DQ; ","; LF;
    "                      "; JoinArguments o (Fields t) "r"; ", ";
    JoinArguments o (PrimaryKeys t) "r"; ")"; LF;
    "    return errors.WithStack(err)"; LF;
    "}"; LF ]).

(** One line of the struct declaration. *)
Definition struct_field (entry : string * string) : string :=
  let '(f, typ) := entry in
  cat [LF; "    "; field f; " "; typ; " "; TICK; "db:"; DQ; f; DQ; TICK].

(** One parameter of the primary-key getter. *)
Definition key_param (entry : string * string) : string :=
  let '(f, typ) := entry in
  cat [", "; param f; " "; typ].

(** The text of a foreign-key getter, from its comment line to its closing
    brace; [fke] is [$fk | fkey] and the function is named by
    [print "Get" ($fk | fkey) $name "s"]. *)
Definition fk_getter_name (fke name : string) : string :=
  cat ["Get"; fke; name; "s"].

Definition fk_getter_head (name fke : string) : string :=
  cat [LF; "// "; fk_getter_name fke name; " gets a list of "; name;
       " belonging to a "].

Definition fk_getter_text (tableName name fke fk fktype : string) : string :=
  cat [
    fke; "."; LF;
    "func "; fk_getter_name fke name; "(db db.DBContext, "; param fk; " ";
    fktype;
    ") ([]*"; name; ", error) {"; LF;
    "    var result []*"; name; LF;
    "    if err := db.Select(&result, "; DQ; "SELECT * FROM "; tableName;
    " WHERE "; fk; " = ?"; DQ; ", "; param fk; "); err != nil {"; LF;
    "        return nil, errors.WithStack(err)"; LF;
    "    }"; LF;
    "    return result, nil"; LF;
    "}"; LF ].

(** The body of [range $fk, $fktype := .ForeignKeys], inside [with $]. *)
Definition fk_getter (t : Table) (name : string) (entry : string * string)
    : Tmpl unit :=
  let '(fk, fktype) := entry in
  emit LF ;;
  fke ← call (ForeignKey fk);
  emit (fk_getter_head name fke) ;;
  fke' ← call (ForeignKey fk);
  emit (fk_getter_text (Name t) name fke' fk fktype) ;;
  emit LF.

Definition TableTemplate (o : MapOrder) (t : Table) : Tmpl unit :=
  emit LF ;;
  name ← call (StructName (Name t));
  let fn_name := cat ["Get"; name] in
  emit (cat [
    LF; LF;
    "// "; name; " is the struct generated from table "; DQ; Name t; DQ;
    "."; LF;
    "type "; name; " struct {" ]) ;;
  for_each (template_range (Fields t))
    (fun entry => emit (struct_field entry)) ;;
  emit (cat [
    LF; "}"; LF; LF; LF; LF;
    "// "; fn_name; " gets a "; name; " from the Database."; LF;
    "func "; fn_name; "(db db.DBContext" ]) ;;
  for_each (template_range (PrimaryKeys t))
    (fun entry => emit (key_param entry)) ;;
  emit (cat [
    ") (*"; name; ", error) {"; LF;
    "    var result "; name; LF;
    "    if err := db.Get(&result, "; DQ; "SELECT * FROM "; Name t;
    " WHERE "; JoinCondition o (PrimaryKeys t) " AND "; DQ; ", ";
    JoinArguments o (PrimaryKeys t) EmptyString; "); err != nil {"; LF;
    "        return nil, errors.WithStack(err)"; LF;
    "    }"; LF;
    "    return &result, nil"; LF;
    "}"; LF; LF; LF ]) ;;
  for_each (template_range (ForeignKeys t)) (fk_getter t name) ;;
  emit (cat [LF; LF; LF]) ;;
  (if Upsert t
   then emit LF ;; UpsertTemplate o t ;; emit LF
   else emit LF ;; UpdateOrInsertTemplate o t ;; emit LF) ;;
  emit (cat [
    LF; LF; LF;
    "// Delete deletes the "; name; " from the Database."; LF;
    "func (r *"; name; ") Delete(db db.DBContext) error {"; LF;
    "    _, err := db.Exec("; DQ; "DELETE FROM "; Name t;
    " WHERE "; JoinCondition o (PrimaryKeys t) " AND "; DQ; ", ";
    JoinArguments o (PrimaryKeys t) "r"; ")"; LF;
    "    return errors.WithStack(err)"; LF;
    "}"; LF ]).

Definition FileTemplate (o : MapOrder) (t : Table) : Tmpl unit :=
  emit (cat [
    LF;
    "// Generated by "; DQ; "git.nkagami.me/natsukagami/kjudge/models/generate";
    DQ; ". DO NOT EDIT."; LF;
    LF;
    "package models"; LF;
    LF;
    "import ("; LF;
    "    "; DQ; "database/sql"; DQ; LF;
    "    "; DQ; "github.com/pkg/errors"; DQ; LF;
    "    "; DQ; "git.nkagami.me/natsukagami/kjudge/db"; DQ; LF;
    ")"; LF;
    LF ]) ;;
  TableTemplate o t ;;
  emit LF.

(** [t.Execute(f, table)]: the text written to [f], and whether execution
    succeeded. *)
Definition Execute (o : MapOrder) (t : Table) : Tmpl unit := FileTemplate o t.

(** ** The driver: [main] *)

(** What [main] reports through [log]. *)
Inductive Error : Type :=
  | DecodeError
  | CreateError (filename : string)
  | ExecuteError (filename : string)
  | CloseError (filename : string)
  | GoFmtError (filename : string)
  | GoimportsError (filename : string).

Inductive LogEntry : Type :=
  | Handling (filename : string)
  | Generated (name filename : string)
  | Fatal (err : Error).

(** The files on disk and the log written so far.  A file is named by the
    path as the program gives it: two paths that lead to one file on disk,
    such as [models/./a_generated.go] and [models/a_generated.go], are two
    entries here.  The paths [main] builds from table names without a slash
    are entries of the directory [models] and differ when the names do;
    what is stated about the files of other tables is stated for such
    names. *)
Record World : Type := {
  files : gmap string string;
  log : list LogEntry
}.

(** What the surroundings decide: whether a file can be created and
    closed, how many bytes a file accepts before a write fails ([None]: no
    limit), and what the two formatting tools make of a file ([None]: the
    tool fails and leaves the file as it is). *)
Record Env : Type := {
  create_fails : string -> bool;
  write_limit : string -> option nat;
  close_fails : string -> bool;
  gofmt : string -> string -> option string;
  goimports : string -> string -> option string
}.

(** A run threads the world; [None] is the process ended by [log.Fatal],
    which prints and calls [os.Exit(1)]. *)
Definition Run (A : Type) : Type := World -> World * option A.

#[global] Instance Run_ret : MRet Run := fun A a w => (w, Some a).

#[global] Instance Run_bind : MBind Run := fun A B f m w =>
  match m w with
  | (w', Some a) => f a w'
  | (w', None) => (w', None)
  end.

Definition Printf (e : LogEntry) : Run unit := fun w =>
  ({| files := files w; log := log w ++ [e] |}, Some tt).

Definition log_Fatal {A : Type} (err : Error) : Run A := fun w =>
  ({| files := files w; log := log w ++ [Fatal err] |}, None).

Definition write_file (filename content : string) : Run unit := fun w =>
  ({| files := <[filename := content]> (files w); log := log w |}, Some tt).

Definition remove_file (filename : string) : Run unit := fun w =>
  ({| files := delete filename (files w); log := log w |}, Some tt).

(** The exit status of the process. *)
Definition exit_status {A : Type} (r : World * option A) : Z :=
  match r.2 with Some _ => 0%Z | None => 1%Z end.

(** [fmt.Sprintf("models/%s_generated.go", name)] *)
Definition generated_filename (name : string) : string :=
  cat ["models/"; name; "_generated.go"].

(** [os.Create(filename)]: the file exists and is empty afterwards. *)
Definition Create (env : Env) (filename : string) : Run unit :=
  if create_fails env filename then log_Fatal (CreateError filename)
  else write_file filename EmptyString.

(** [t.Execute(f, table)] on the open file: the text goes to the file as
    it is produced; a write beyond the file's limit or an error of the
    template is fatal. *)
Definition execute_to_file (env : Env) (filename : string) (r : Tmpl unit)
    : Run unit :=
  let '(text, result) := r in
  let full :=
    write_file filename text ;;
    match result with
    | Some _ => mret tt
    | None => log_Fatal (ExecuteError filename)
    end in
  match write_limit env filename with
  | Some n =>
      if n <? String.length text
      then write_file filename (String.substring 0 n text) ;;
           log_Fatal (ExecuteError filename)
      else full
  | None => full
  end.

Definition Close (env : Env) (filename : string) : Run unit :=
  if close_fails env filename then log_Fatal (CloseError filename)
  else mret tt.

(** [exec.Command(tool, ..., filename).Run()] for a tool that rewrites the
    file in place. *)
Definition run_tool (tool : string -> string -> option string)
    (err : Error) (filename : string) : Run unit := fun w =>
  match files w !! filename with
  | Some content =>
      match tool filename content with
      | Some content' => write_file filename content' w
      | None => log_Fatal err w
      end
  | None => log_Fatal err w
  end.

(** The body of the loop of [main]. *)
Definition handle_table (o : MapOrder) (env : Env) (tables : TomlTables)
    (entry : string * TomlTable) : Run unit :=
  let '(name, fields) := entry in
  let table := TableFromToml o tables name fields in
  let filename := generated_filename name in
  Printf (Handling filename) ;;
  Create env filename ;;
  execute_to_file env filename (Execute o table) ;;
  Close env filename ;;
  run_tool (gofmt env) (GoFmtError filename) filename ;;
  run_tool (goimports env) (GoimportsError filename) filename ;;
  Printf (Generated name filename).

Fixpoint each_table (body : string * TomlTable -> Run unit)
    (entries : list (string * TomlTable)) : Run unit :=
  match entries with
  | [] => mret tt
  | entry :: rest => body entry ;; each_table body rest
  end.

(** [main], given what [toml.DecodeFile] returned ([None]: an error).  The
    [rm] command receives its pattern unexpanded and its failure is
    ignored. *)
Definition main (o : MapOrder) (env : Env) (decoded : option TomlTables)
    : Run unit :=
  tables ← match decoded with
           | Some tables => mret tables
           | None => log_Fatal DecodeError
           end;
  remove_file "models/*_generated.go" ;;
  each_table (handle_table o env tables) (range_of o tables).

(** Surroundings in which nothing fails and the tools leave the text as
    it is, and the world [main] starts from when nothing is on disk. *)
Definition quiet_env : Env :=
  {| create_fails := fun _ => false;
     write_limit := fun _ => None;
     close_fails := fun _ => false;
     gofmt := fun _ content => Some content;
     goimports := fun _ content => Some content |}.

Definition empty_world : World := {| files := ∅; log := [] |}.

(** ** Statements about text *)

(** [strings.Contains(s, substr)]. *)
Fixpoint strings_Contains (s substr : string) : bool :=
  String.prefix substr s ||
  match s with
  | EmptyString => false
  | String _ s' => strings_Contains s' substr
  end.

(** The canonical enumeration of a column set: its names in lexicographic
    order. *)
Definition columns (m : TomlTable) : list string :=
  merge_sort String.le ((map_to_list m).*1).

(** ** Definitions in the words of the specification *)

(** The naming rule in the words of the specification, where the segment
    [id] is [ID] at every position, the first one included. *)
Definition transform_part_spec (exported : bool) (i : nat) (part : string)
    : string :=
  if String.eqb part "id" then "ID"
  else if (i =? 0) && negb exported then part
  else strings_Title part.

Definition transform_spec (s : string) (exported : bool) : string :=
  cat (imap (transform_part_spec exported) (strings_Split s "_")).

(** A column is shaped like a foreign key of a schema when its name ends
    with [_id] and the name without [_id], followed by [s], is a table of
    the schema. *)
Definition references_table (tables : TomlTables) (column : string) : Prop :=
  exists base, column = base +:+ "_id" /\ is_Some (tables !! (base +:+ "s")).

(** The SET clause of the upsert statement in the words of the
    specification: the columns that are not key columns. *)
Definition upsert_set_clause_spec (t : Table) : string :=
  strings_Join
    ((fun c => c +:+ " = ?") <$> columns (Fields t ∖ PrimaryKeys t)) ", ".

(** ** Schemas *)

(** The scenarios of the specification: a table with an integer [id] and
    a foreign key, a relation table, and a table with a text [id]. *)
Definition posts : TomlTable :=
  <["id" := "int"]> (<["user_id" := "int"]> {["body" := "text"]}).

Definition blog_schema : TomlTables :=
  <["posts" := posts]> {["users" := {["id" := "int"]}]}.

Definition enrollments : TomlTable :=
  <["user_id" := "int"]> {["course_id" := "int"]}.

Definition school_schema : TomlTables :=
  <["enrollments" := enrollments]>
    (<["users" := {["id" := "int"]}]> {["courses" := {["id" := "int"]}]}).

Definition users_text_id : TomlTable :=
  <["id" := "text"]> {["name" := "text"]}.

Definition users_schema : TomlTables := {["users" := users_text_id]}.

(** A table with neither [id] nor a foreign key. *)
Definition logs : TomlTable := {["message" := "text"]}.

Definition logs_schema : TomlTables := {["logs" := logs]}.

(** A schema with a table whose name is empty, which [StructName] cannot
    turn into a struct name. *)
Definition unnamed_schema : TomlTables :=
  <[EmptyString := {["id" := "int"]}]> {["users" := {["id" := "int"]}]}.

(** The specification's words for [StructName]: the name without its last
    character.  A character is a UTF-8 sequence, so the continuation bytes
    (those of the form 10xxxxxx) at the end go with the byte before
    them. *)
Definition is_continuation (c : ascii) : bool :=
  (128 <=? nat_of_ascii c) && (nat_of_ascii c <=? 191).

Fixpoint drop_character (reversed : list ascii) : list ascii :=
  match reversed with
  | [] => []
  | c :: rest => if is_continuation c then drop_character rest else rest
  end.

Definition without_last_character_spec (s : string) : string :=
  string_of_list_ascii (rev (drop_character (rev (list_ascii_of_string s)))).

(** The table name [caf] followed by an e with an acute accent, a
    character of two bytes. *)
Definition cafe : string :=
  "caf" +:+ String "195"%char (String "169"%char EmptyString).

(** ** Auxiliary definitions *)



(** The test of the first loop of [TableFromToml]. *)
Definition is_foreign_key (tables : TomlTables) (field : string) : bool :=
  strings_HasSuffix field "_id" &&
  bool_decide (is_Some (tables !! (trim_id field +:+ "s"))).

(** [runs m w a]: the template [m] executes without error, writes [w] and
    returns [a]. *)
Definition runs {A : Type} (m : Tmpl A) (w : string) (a : A) : Prop :=
  m = (w, Some a).

(** What one foreign-key getter writes when [ForeignKey] succeeds. *)
Definition fk_getter_output (t : Table) (name : string)
    (entry : string * string) : string :=
  let '(fk, fktype) := entry in
  let fke := default EmptyString (ForeignKey fk) in
  cat [LF; fk_getter_head name fke;
       fk_getter_text (Name t) name fke fk fktype; LF].

(** What handling a table leaves in its file when nothing fails; [None]
    when handling the table ends the run. *)
Definition generated_file (o : MapOrder) (env : Env) (tables : TomlTables)
    (entry : string * TomlTable) : option string :=
  let filename := generated_filename entry.1 in
  let r := Execute o (TableFromToml o tables entry.1 entry.2) in
  if create_fails env filename then None
  else if match write_limit env filename with
          | Some n => n <? String.length r.1
          | None => false
          end then None
  else match r.2 with
       | None => None
       | Some _ =>
           if close_fails env filename then None
           else match gofmt env filename r.1 with
                | Some formatted => goimports env filename formatted
                | None => None
                end
       end.

(** The file of a table, as a pair of name and content. *)
Definition file_entry (o : MapOrder) (env : Env) (tables : TomlTables)
    (entry : string * TomlTable) : string * string :=
  (generated_filename entry.1,
   default EmptyString (generated_file o env tables entry)).


(** ** Further auxiliary definitions *)

(** No byte of the string is an underscore. *)
Fixpoint no_underscore (s : string) : bool :=
  match s with
  | EmptyString => true
  | String c s' => negb (Ascii.eqb c "_") && no_underscore s'
  end.

(** Every byte of the string is an ASCII character. *)
Fixpoint is_ascii (s : string) : bool :=
  match s with
  | EmptyString => true
  | String c s' => (nat_of_ascii c <=? 127) && is_ascii s'
  end.

(** ** Page templates: [templateList] and [resolveTemplate] *)

(** The requirements of every page template. *)
Definition templateList : gmap string (list string) :=
  list_to_map [
    ("admin/home", ["admin/root"; "admin/contest_inputs"]);
    ("admin/contests", ["admin/root"; "admin/contest_inputs"]);
    ("admin/contest",
       ["admin/root"; "admin/contest_inputs"; "admin/problem_inputs"]);
    ("admin/contest_submissions", ["admin/root"; "admin/submission_inputs"]);
    ("admin/contest_announcements", ["admin/root"]);
    ("admin/problem",
       ["admin/root"; "admin/problem_inputs"; "admin/test_inputs";
        "admin/test_group_inputs"; "admin/file_inputs"]);
    ("admin/test_group",
       ["admin/root"; "admin/test_inputs"; "admin/test_group_inputs"]);
    ("admin/problem_submissions", ["admin/root"; "admin/submission_inputs"]);
    ("admin/users", ["admin/root"; "admin/user_inputs"]);
    ("admin/user",
       ["admin/root"; "admin/user_inputs"; "admin/submission_inputs"]);
    ("admin/submissions", ["admin/root"; "admin/submission_inputs"]);
    ("admin/submission", ["admin/root"]);
    ("admin/jobs", ["admin/root"]);
    ("admin/contest_scoreboard", ["admin/root"]);
    ("admin/clarifications", ["admin/root"]);
    ("admin/login", []);
    ("user/login", ["user_root"]);
    ("user/home", ["user_root"]);
    ("contests/home", ["user_root"]);
    ("contests/root", ["user_root"]);
    ("contests/overview", ["contests/root"]);
    ("contests/messages", ["contests/root"]);
    ("contests/problem", ["contests/root"]);
    ("contests/submission", ["contests/root"]);
    ("contests/scoreboard", ["contests/root"]);
    ("contests/scoreboard_wide", []);
    ("error", [])
  ].

(** [resolveTemplate(name, into)]: the requirements of [name] are
    resolved one after the other, each into the list so far, and [name] is
    appended.  The recursion of the source is bounded here by [fuel], the
    depth it may reach; [None] is a recursion cut short. *)
Fixpoint resolveTemplate (fuel : nat) (name : string) (into : list string)
    : option (list string) :=
  match fuel with
  | 0 => None
  | S fuel' =>
      let resolved :=
        match templateList !! name with
        | Some reqs =>
            fold_left (fun into req => into ≫= resolveTemplate fuel' req)
              reqs (Some into)
        | None => Some into
        end in
      (fun into => into ++ [name]) <$> resolved
  end.

(** [templateFilename] *)
Definition templateFilename (name : string) : string :=
  cat ["templates/"; name; ".html"].

(** A list of template names in which every template comes after its
    requirements. *)
Definition requirements_first (names : list string) : Prop :=
  forall before name after reqs req,
    names = before ++ name :: after ->
    templateList !! name = Some reqs -> req ∈ reqs -> req ∈ before.

(** ** The admin pages of a user: [server/admin/user.go] *)

(** What the handlers use and the file does not declare: the user model
    and its form, the submissions of a user and the errors of the
    collaborators.  [form_Bind form u] is [form.Bind(&u)], giving the
    updated user or an error; [set_IsUpdate] is [form.IsUpdate = true];
    [is_ErrNoRows err] is [errors.Is(err, sql.ErrNoRows)]. *)
Class UserModel : Type := {
  User : Type;
  UserForm : Type;
  Submissions : Type;
  Err : Type;
  user_ID : User -> string;
  form_ID : UserForm -> string;
  set_IsUpdate : UserForm -> UserForm;
  UserToForm : User -> UserForm;
  form_Bind : UserForm -> User -> Err + User;
  is_ErrNoRows : Err -> bool
}.

Section admin_user_model.
Context `{UserModel}.

(** The errors a handler returns. *)
Inductive HandlerError : Type :=
  | ErrNotFound
  | BadRequest (message : string)
  | Passed (err : Err).

(** [UserCtx]: the context for rendering a user. *)
Record UserCtx : Type := {
  ctx_User : User;
  ctx_Submissions : option Submissions;
  EditForm : option UserForm;
  EditFormError : option Err
}.

(** What the database, the request and the renderer answer to the calls
    of a handler; for the calls that only fail or succeed, [None] is
    success. *)
Record Answers : Type := {
  Beginx : option Err;
  GetUser : string -> Err + User;
  SubmissionsBy : User -> Err + Submissions;
  c_Bind : Err + UserForm;
  user_Write : User -> Err + User;
  Commit : option Err;
  c_Render : nat -> UserCtx -> option Err;
  c_Redirect : nat -> string -> option Err
}.

(** The calls a handler makes, in order. *)
Inductive Call : Type :=
  | CallBeginx
  | CallGetUser (id : string)
  | CallSubmissionsBy (u : User)
  | CallBind
  | CallWrite (u : User)
  | CallCommit
  | CallRollback
  | CallRender (status : nat) (ctx : UserCtx)
  | CallRedirect (status : nat) (url : string).

Definition StatusOK : nat := 200.
Definition StatusSeeOther : nat := 303.
Definition StatusBadRequest : nat := 400.

(** [getUser]: the context of the user named by the request, or
    [echo.ErrNotFound] when there is no such row. *)
Definition getUser (a : Answers) (id : string)
    : list Call * (HandlerError + UserCtx) :=
  ([CallGetUser id],
   match GetUser a id with
   | inl err =>
       if is_ErrNoRows err then inl ErrNotFound else inl (Passed err)
   | inr u =>
       inr {| ctx_User := u; ctx_Submissions := None;
              EditForm := None; EditFormError := None |}
   end).

(** The method [Render] of [UserCtx]. *)
Definition Render (a : Answers) (u : UserCtx)
    : list Call * option HandlerError :=
  match SubmissionsBy a (ctx_User u) with
  | inl err => ([CallSubmissionsBy (ctx_User u)], Some (Passed err))
  | inr s =>
      let form :=
        match EditForm u with
        | None => set_IsUpdate (UserToForm (ctx_User u))
        | Some form => form
        end in
      let u := {| ctx_User := ctx_User u; ctx_Submissions := Some s;
                  EditForm := Some form;
                  EditFormError := EditFormError u |} in
      let status :=
        match EditFormError u with
        | Some _ => StatusBadRequest
        | None => StatusOK
        end in
      ([CallSubmissionsBy (ctx_User u); CallRender status u],
       Passed <$> c_Render a status u)
  end.

(** [UserGet]: GET /admin/user/:id *)
Definition UserGet (a : Answers) (id : string)
    : list Call * option HandlerError :=
  let '(calls, r) := getUser a id in
  match r with
  | inl err => (calls, Some err)
  | inr ctx => let '(calls', r') := Render a ctx in (calls ++ calls', r')
  end.

(** The body of [UserEdit] after the transaction has begun. *)
Definition UserEdit_in_tx (a : Answers) (id : string)
    : list Call * option HandlerError :=
  let '(calls, r) := getUser a id in
  match r with
  | inl err => (calls, Some err)
  | inr ctx =>
      let nw := ctx_User ctx in
      match c_Bind a with
      | inl err => (calls ++ [CallBind], Some (Passed err))
      | inr form =>
          let form := set_IsUpdate form in
          let failed err :=
            Render a {| ctx_User := ctx_User ctx;
                        ctx_Submissions := ctx_Submissions ctx;
                        EditForm := Some form;
                        EditFormError := Some err |} in
          if negb (String.eqb (form_ID form) (user_ID nw))
          then (calls ++ [CallBind],
                Some (BadRequest "cannot change user id"))
          else
            match form_Bind form nw with
            | inl err =>
                let '(calls', r') := failed err in
                (calls ++ [CallBind] ++ calls', r')
            | inr nw =>
                match user_Write a nw with
                | inl err =>
                    let '(calls', r') := failed err in
                    (calls ++ [CallBind; CallWrite nw] ++ calls', r')
                | inr nw' =>
                    match Commit a with
                    | Some err =>
                        (calls ++ [CallBind; CallWrite nw; CallCommit],
                         Some (Passed err))
                    | None =>
                        let url := cat ["/admin/users/"; user_ID nw'] in
                        (calls ++ [CallBind; CallWrite nw; CallCommit;
                                   CallRedirect StatusSeeOther url],
                         Passed <$> c_Redirect a StatusSeeOther url)
                    end
                end
            end
      end
  end.

(** [UserEdit]: POST /admin/user/:id.  The rollback is deferred: it runs
    when the handler returns, whatever it returns. *)
Definition UserEdit (a : Answers) (id : string)
    : list Call * option HandlerError :=
  match Beginx a with
  | Some err => ([CallBeginx], Some (Passed err))
  | None =>
      let '(calls, r) := UserEdit_in_tx a id in
      (CallBeginx :: calls ++ [CallRollback], r)
  end.
End admin_user_model.

(** A small user model, for examples: a user is its identifier, a form
    the identifier it was filled with, and binding a form gives the user
    of the form. *)
Definition plain_users : UserModel :=
  {| User := string; UserForm := string; Submissions := unit; Err := string;
     user_ID := fun u => u; form_ID := fun form => form;
     set_IsUpdate := fun form => form; UserToForm := fun u => u;
     form_Bind := fun form _ => inr form;
     is_ErrNoRows := fun err => String.eqb err "sql: no rows in result set" |}.

(** Answers with which nothing fails: every user exists and the form
    names the user [form]. *)
Definition all_well (form : string) : @Answers plain_users :=
  @Build_Answers plain_users
    None
    (fun id => inr (id : @User plain_users))
    (fun _ => inr (tt : @Submissions plain_users))
    (inr (form : @UserForm plain_users))
    (fun u => inr u)
    None
    (fun _ _ => None)
    (fun _ _ => None).

(** * Proofs *)

(** ** Byte strings *)

Section strings.
Implicit Types s t u : string.

Lemma string_app_cons a s t : String a s +:+ t = String a (s +:+ t).
Proof. reflexivity. Qed.

Lemma string_app_empty_l s : EmptyString +:+ s = s.
Proof. reflexivity. Qed.

Lemma string_app_empty_r s : s +:+ EmptyString = s.
Proof.
  induction s as [|a s IH]; [done|]. by rewrite string_app_cons, IH.
Qed.

Lemma string_app_assoc s t u : (s +:+ t) +:+ u = s +:+ (t +:+ u).
Proof.
  induction s as [|a s IH]; [done|]. by rewrite !string_app_cons, IH.
Qed.

Lemma string_length_app s t :
  String.length (s +:+ t) = String.length s + String.length t.
Proof.
  induction s as [|a s IH]; [done|]. rewrite string_app_cons. simpl. lia.
Qed.

Lemma substring_0_app s t :
  String.substring 0 (String.length s) (s +:+ t) = s.
Proof.
  induction s as [|a s IH]; [by destruct t|].
  rewrite string_app_cons. simpl. by rewrite IH.
Qed.

Lemma substring_all s : String.substring 0 (String.length s) s = s.
Proof. by rewrite <-(string_app_empty_r s) at 2; rewrite substring_0_app. Qed.

Lemma substring_skip_app s t :
  String.substring (String.length s) (String.length t) (s +:+ t) = t.
Proof.
  induction s as [|a s IH]; [apply substring_all|].
  rewrite string_app_cons. simpl. apply IH.
Qed.

(** A string splits at any position within it. *)
Lemma substring_split s n :
  n <= String.length s ->
  s = String.substring 0 n s +:+ String.substring n (String.length s - n) s.
Proof.
  revert n. induction s as [|a s IH]; intros [|n] Hn; simpl in *;
    try done; try lia.
  - by rewrite substring_all.
  - rewrite string_app_cons. f_equal. apply IH. lia.
Qed.

Lemma len_app s t : len (s +:+ t) = (len s + len t)%Z.
Proof. unfold len. rewrite string_length_app. lia. Qed.

Lemma len_nonneg s : (0 <= len s)%Z.
Proof. unfold len. lia. Qed.

(** Cutting a suffix off: the slice is in range and gives the rest. *)
Lemma slice_to_app s t : slice_to (s +:+ t) (len (s +:+ t) - len t) = Some s.
Proof.
  unfold slice_to. rewrite len_app.
  replace (len s + len t - len t)%Z with (len s) by lia.
  pose proof (len_nonneg s). pose proof (len_nonneg t).
  rewrite andb_true_intro by (split; apply Z.leb_le; lia).
  unfold len. by rewrite Nat2Z.id, substring_0_app.
Qed.

Lemma slice_to_None s hi :
  slice_to s hi = None <-> (hi < 0 \/ len s < hi)%Z.
Proof.
  unfold slice_to. destruct (0 <=? hi)%Z eqn:H1, (hi <=? len s)%Z eqn:H2;
    simpl; try apply Z.leb_le in H1; try apply Z.leb_le in H2;
    try apply Z.leb_gt in H1; try apply Z.leb_gt in H2;
    split; intros; try done; try lia; auto.
Qed.

Lemma string_snoc s :
  1 <= String.length s -> exists t c, s = t +:+ String c EmptyString.
Proof.
  induction s as [|a s IH]; simpl; [lia|]. intros _.
  destruct s as [|b s].
  - by exists EmptyString, a.
  - destruct IH as (t & c & ->); [simpl; lia|]. by exists (String a t), c.
Qed.

Lemma slice_from_app s t :
  slice_from (s +:+ t) (len (s +:+ t) - len t) = Some t.
Proof.
  unfold slice_from. rewrite len_app.
  replace (len s + len t - len t)%Z with (len s) by lia.
  pose proof (len_nonneg s). pose proof (len_nonneg t).
  rewrite andb_true_intro by (split; apply Z.leb_le; lia).
  unfold len. rewrite Nat2Z.id, string_length_app.
  replace (String.length s + String.length t - String.length s)
    with (String.length t) by lia.
  by rewrite substring_skip_app.
Qed.

(** [HasSuffix] holds exactly of the strings that end with the suffix. *)
Lemma HasSuffix_spec s suffix :
  strings_HasSuffix s suffix = true <-> exists base, s = base +:+ suffix.
Proof.
  unfold strings_HasSuffix. split.
  - intros [Hle Hs]%andb_true_iff. apply Z.leb_le in Hle.
    unfold slice_from in Hs. destruct (_ && _); [|done].
    apply String.eqb_eq in Hs.
    assert (Z.to_nat (len s - len suffix) <= String.length s) as Hn.
    { unfold len in *. lia. }
    pose proof (substring_split s _ Hn) as Heq. rewrite Hs in Heq. eauto.
  - intros [base ->]. rewrite slice_from_app, String.eqb_refl, len_app.
    pose proof (len_nonneg base).
    rewrite andb_true_r. apply Z.leb_le. lia.
Qed.

Lemma trim_id_app base : trim_id (base +:+ "_id") = base.
Proof.
  unfold trim_id. rewrite string_length_app.
  replace (String.length base + String.length "_id" - String.length "_id")
    with (String.length base) by lia.
  apply substring_0_app.
Qed.

Lemma HasSuffix_slice_to field :
  strings_HasSuffix field "_id" = true ->
  slice_to field (len field - len "_id") = Some (trim_id field).
Proof.
  intros [base ->]%HasSuffix_spec. by rewrite slice_to_app, trim_id_app.
Qed.

Lemma string_app_inv_tail s t u : s +:+ u = t +:+ u -> s = t.
Proof.
  revert t. induction s as [|a s IH]; intros [|b t] H; try done.
  - apply (f_equal String.length) in H.
    rewrite string_app_empty_l, string_app_cons in H. simpl in H.
    rewrite string_length_app in H. lia.
  - apply (f_equal String.length) in H.
    rewrite string_app_empty_l, string_app_cons in H. simpl in H.
    rewrite string_length_app in H. lia.
  - rewrite !string_app_cons in H. injection H as -> H. f_equal. by apply IH.
Qed.
End strings.

(** ** Texts and containment *)

Lemma cat_cons x l : cat (x :: l) = x +:+ cat l.
Proof. reflexivity. Qed.

Lemma cat_app l1 l2 : cat (l1 ++ l2) = cat l1 +:+ cat l2.
Proof.
  induction l1 as [|x l1 IH]; [done|]. simpl app.
  by rewrite !cat_cons, IH, string_app_assoc.
Qed.

Lemma prefix_spec sub s :
  String.prefix sub s = true <-> exists post, s = sub +:+ post.
Proof.
  revert s. induction sub as [|a sub IH]; intros s; simpl.
  - destruct s; split; eauto.
  - destruct s as [|b s]; simpl.
    + split; [done|]. by intros [post ?].
    + destruct (ascii_dec a b) as [->|Hne].
      * rewrite IH. split; intros [post Hp]; exists post.
        -- by rewrite string_app_cons, <-Hp.
        -- rewrite string_app_cons in Hp. by injection Hp.
      * split; [done|]. intros [post Hp]. rewrite string_app_cons in Hp.
        injection Hp as ??. congruence.
Qed.

(** [Contains] decides whether the text has the given part somewhere. *)
Lemma Contains_spec s sub :
  strings_Contains s sub = true <-> exists pre post, s = pre +:+ (sub +:+ post).
Proof.
  induction s as [|a s IH].
  - change (strings_Contains EmptyString sub)
      with (String.prefix sub EmptyString || false).
    rewrite orb_false_r, prefix_spec. split.
    + intros [post Hp]. by exists EmptyString, post.
    + intros ([|b pre] & post & Hp); [eauto|done].
  - change (strings_Contains (String a s) sub)
      with (String.prefix sub (String a s) || strings_Contains s sub).
    rewrite orb_true_iff, prefix_spec, IH. split.
    + intros [[post Hp]|(pre & post & Hp)].
      * by exists EmptyString, post.
      * exists (String a pre), post. by rewrite string_app_cons, <-Hp.
    + intros ([|b pre] & post & Hp).
      * left. by exists post.
      * right. rewrite string_app_cons in Hp. injection Hp as -> Hp. eauto.
Qed.

Lemma Contains_app_l s t sub :
  strings_Contains s sub = true -> strings_Contains (s +:+ t) sub = true.
Proof.
  rewrite !Contains_spec. intros (pre & post & ->).
  exists pre, (post +:+ t). by rewrite !string_app_assoc.
Qed.

Lemma Contains_app_r s t sub :
  strings_Contains t sub = true -> strings_Contains (s +:+ t) sub = true.
Proof.
  rewrite !Contains_spec. intros (pre & post & ->).
  exists (s +:+ pre), post. by rewrite !string_app_assoc.
Qed.

Lemma Contains_refl s : strings_Contains s s = true.
Proof.
  apply Contains_spec. exists EmptyString, EmptyString.
  by rewrite string_app_empty_r.
Qed.

(** A run of consecutive pieces of a text is contained in it. *)
Lemma Contains_cat before mid after :
  strings_Contains (cat (before ++ mid ++ after)) (cat mid) = true.
Proof.
  rewrite !cat_app. apply Contains_app_r, Contains_app_l, Contains_refl.
Qed.

(** ** Naming *)

Lemma gocase_loop_cat export i parts result :
  gocase_loop export i parts result =
  result +:+ cat (imap (fun j => gocase_part export (i + j)) parts).
Proof.
  revert i result. induction parts as [|part parts IH]; intros i result.
  - simpl. by rewrite string_app_empty_r.
  - simpl gocase_loop. rewrite IH, imap_cons, cat_cons, string_app_assoc.
    rewrite Nat.add_0_r. do 3 f_equal. apply imap_ext. intros j x _.
    simpl. f_equal. lia.
Qed.

Lemma SnakeToGocase_cat s export :
  SnakeToGocase s export =
  cat (imap (gocase_part export) (strings_Split s "_")).
Proof. unfold SnakeToGocase. by rewrite gocase_loop_cat. Qed.

(** The spec's examples. *)
Example SnakeToGocase_contest_id_exported :
  SnakeToGocase "contest_id" true = "ContestID".
Proof. reflexivity. Qed.

Example SnakeToGocase_contest_id_param :
  SnakeToGocase "contest_id" false = "contestID".
Proof. reflexivity. Qed.

Example SnakeToGocase_name : SnakeToGocase "name" true = "Name".
Proof. reflexivity. Qed.

(** C8, as stated, fails: the parameter name of the column [id] is [id],
    where the specification's rule gives [ID]. *)
Lemma SnakeToGocase_first_id_kept :
  SnakeToGocase "id" false = "id" /\
  transform_spec "id" false = "ID" /\
  ~ (forall s exported, SnakeToGocase s exported = transform_spec s exported).
Proof.
  split; [done|]. split; [done|]. intros H.
  specialize (H "id" false). discriminate H.
Qed.

(** C8, amended: the result is the concatenation, without separator, of
    the rendered segments; the first segment is kept as it is when
    [export] is false (also when it is [id]); every other segment equal to
    [id] is rendered [ID], and the remaining ones are title-cased. *)
Theorem SnakeToGocase_segments (s : string) (export : bool) :
  exists rendered : list string,
    SnakeToGocase s export = cat rendered /\
    length rendered = length (strings_Split s "_") /\
    forall i part, strings_Split s "_" !! i = Some part ->
      rendered !! i = Some
        (if decide (i = 0 /\ export = false) then part
         else if decide (part = "id") then "ID"
         else strings_Title part).
Proof.
  exists (imap (gocase_part export) (strings_Split s "_")).
  split; [apply SnakeToGocase_cat|]. split; [apply length_imap|].
  intros i part Hi. rewrite list_lookup_imap, Hi. simpl. f_equal.
  unfold gocase_part. destruct i, export; simpl;
    repeat case_decide; try naive_solver;
    destruct (String.eqb_spec part "id"); naive_solver.
Qed.

Lemma SnakeToGocase_segments_witness :
  strings_Split "id_user_id" "_" = ["id"; "user"; "id"] /\
  SnakeToGocase "id_user_id" false = "idUserID" /\
  exists rendered : list string,
    SnakeToGocase "id_user_id" false = cat rendered /\
    length rendered = length (strings_Split "id_user_id" "_") /\
    forall i part, strings_Split "id_user_id" "_" !! i = Some part ->
      rendered !! i = Some
        (if decide (i = 0 /\ false = false) then part
         else if decide (part = "id") then "ID"
         else strings_Title part).
Proof.
  split; [reflexivity|]. split; [reflexivity|].
  apply (SnakeToGocase_segments "id_user_id" false).
Defined.

(** [StructName] fails on the empty name only. *)
Lemma StructName_None tableName :
  StructName tableName = None <-> tableName = EmptyString.
Proof.
  unfold StructName. split.
  - destruct (slice_to _ _) eqn:Hslice; [done|]. intros _.
    apply slice_to_None in Hslice. destruct tableName; [done|].
    unfold len in Hslice. simpl in Hslice. lia.
  - by intros ->.
Qed.

Lemma list_ascii_of_string_app s t :
  list_ascii_of_string (s +:+ t) =
  list_ascii_of_string s ++ list_ascii_of_string t.
Proof.
  induction s as [|c s IH]; [done|].
  rewrite string_app_cons. simpl. by rewrite IH.
Qed.

Lemma without_last_character_byte rest c :
  is_continuation c = false ->
  without_last_character_spec (rest +:+ String c EmptyString) = rest.
Proof.
  intros Hc. unfold without_last_character_spec.
  rewrite list_ascii_of_string_app. simpl list_ascii_of_string.
  rewrite rev_unit. simpl. rewrite Hc, rev_involutive.
  apply string_of_list_ascii_of_string.
Qed.

(** A name that begins with a lower-case letter is exported with the
    capital in its place. *)
Lemma SnakeToGocase_exported c s :
  in_range "a" "z" c = true ->
  exists tail,
    SnakeToGocase (String c s) true =
    String (ascii_of_nat (nat_of_ascii c - 32)) tail.
Proof.
  intros Hc. rewrite SnakeToGocase_cat.
  assert (Ascii.eqb c "_" = false) as Hsep.
  { apply Ascii.eqb_neq. intros ->. discriminate Hc. }
  assert (exists part parts,
    strings_Split (String c s) "_" = String c part :: parts)
    as (part & parts & ->).
  { simpl. rewrite Hsep. destruct (strings_Split s "_"); eauto. }
  rewrite imap_cons, cat_cons.
  assert (exists tail,
    gocase_part true 0 (String c part) =
    String (ascii_of_nat (nat_of_ascii c - 32)) tail) as [tail ->].
  { unfold gocase_part. simpl andb. cbv iota.
    destruct (String.eqb_spec (String c part) "id") as [Hid|_].
    - injection Hid as -> ->. by eexists.
    - destruct c as [b0 b1 b2 b3 b4 b5 b6 b7].
      destruct b0, b1, b2, b3, b4, b5, b6, b7; try discriminate Hc;
        eexists; reflexivity. }
  rewrite string_app_cons. by eexists.
Qed.

(** C10, as stated, fails: the last character of the name [café] is two
    bytes long, and [StructName] drops one byte.  What it exports is not
    the name without its last character, [caf], but [caf] followed by the
    first byte of the character. *)
Lemma StructName_drops_a_byte :
  let kept := "caf" +:+ String "195"%char EmptyString in
  len cafe = 5%Z /\
  without_last_character_spec cafe = "caf" /\
  slice_to cafe (len cafe - 1) = Some kept /\
  StructName cafe = Some (SnakeToGocase kept true) /\
  kept <> without_last_character_spec cafe.
Proof. repeat split; discriminate. Qed.

(** C10, amended: [StructName] slices [tableName[:len(tableName)-1]].  On
    the empty name the upper bound is [-1], out of range, and the call
    fails; on a name of at least one byte it drops exactly the last byte,
    which is the last character when that byte is not the end of a longer
    UTF-8 sequence, and exports the rest: a rest that begins with a
    lower-case letter gives a name that begins with the capital.  So the
    failure cannot happen for a non-empty name. *)
Theorem StructName_defined (tableName : string) :
  1 <= String.length tableName ->
  ((len EmptyString - 1 = -1)%Z /\ StructName EmptyString = None) /\
  StructName tableName <> None /\
  exists rest c,
    tableName = rest +:+ String c EmptyString /\
    StructName tableName = Some (SnakeToGocase rest true) /\
    (is_continuation c = false ->
     without_last_character_spec tableName = rest) /\
    forall first rest',
      rest = String first rest' -> in_range "a" "z" first = true ->
      exists tail,
        StructName tableName =
        Some (String (ascii_of_nat (nat_of_ascii first - 32)) tail).
Proof.
  intros Hlen. split; [done|].
  destruct (string_snoc tableName Hlen) as (rest & c & ->).
  assert (StructName (rest +:+ String c EmptyString) =
          Some (SnakeToGocase rest true)) as Hs.
  { pose proof (slice_to_app rest (String c EmptyString)) as Hslice.
    change (len (String c EmptyString)) with 1%Z in Hslice.
    unfold StructName. by rewrite Hslice. }
  split; [by rewrite Hs|]. exists rest, c. split; [done|]. split; [done|].
  split; [apply without_last_character_byte|].
  intros first rest' -> Hfirst.
  destruct (SnakeToGocase_exported first rest' Hfirst) as [tail Htail].
  exists tail. by rewrite Hs, Htail.
Qed.

Lemma StructName_defined_witness :
  1 <= String.length "users" /\
  StructName "users" = Some "User" /\
  (((len EmptyString - 1 = -1)%Z /\ StructName EmptyString = None) /\
   StructName "users" <> None /\
   exists rest c,
     "users" = rest +:+ String c EmptyString /\
     StructName "users" = Some (SnakeToGocase rest true) /\
     (is_continuation c = false ->
      without_last_character_spec "users" = rest) /\
     forall first rest',
       rest = String first rest' -> in_range "a" "z" first = true ->
       exists tail,
         StructName "users" =
         Some (String (ascii_of_nat (nat_of_ascii first - 32)) tail)).
Proof.
  split; [simpl; lia|]. split; [reflexivity|].
  apply (StructName_defined "users"). simpl; lia.
Defined.

Example StructName_users : StructName "users" = Some "User".
Proof. reflexivity. Qed.

(** ** Ranging over a map *)

Section range.
Context (o : MapOrder) {V : Type}.
Implicit Types m : gmap string V.

Lemma range_of_NoDup m : NoDup ((range_of o m).*1).
Proof. rewrite (range_of_perm o V m). apply NoDup_fst_map_to_list. Qed.

Lemma range_of_to_map m : list_to_map (range_of o m) = m.
Proof.
  rewrite <-(list_to_map_to_list m) at 2.
  apply list_to_map_proper; [apply range_of_NoDup|apply range_of_perm].
Qed.

End range.

(** ** Key inference *)

Lemma is_foreign_key_spec tables field :
  is_foreign_key tables field = true <-> references_table tables field.
Proof.
  unfold is_foreign_key, references_table.
  rewrite andb_true_iff, HasSuffix_spec, bool_decide_eq_true. split.
  - intros [[base ->] Hs]. rewrite trim_id_app in Hs. eauto.
  - intros (base & -> & Hs). rewrite trim_id_app. eauto.
Qed.

#[global] Instance references_table_dec tables column :
  Decision (references_table tables column).
Proof.
  refine (cast_if (decide (is_foreign_key tables column = true)));
    abstract (by rewrite <-is_foreign_key_spec).
Defined.

Lemma key_step_eq tables pks fks field typ :
  key_step tables (pks, fks) (field, typ) =
  if is_foreign_key tables field
  then (<[field := typ]> pks, <[field := typ]> fks)
  else (pks, fks).
Proof.
  unfold key_step, is_foreign_key.
  destruct (strings_HasSuffix field "_id"); [|done].
  simpl. destruct (tables !! _) eqn:Hs.
  - by rewrite bool_decide_eq_true_2.
  - rewrite bool_decide_eq_false_2; [done|]. by intros [??].
Qed.

(** What the loop leaves in both maps: the entries it has inserted on top
    of those it started from. *)
Lemma key_loop_lookup tables (l : list (string * string)) pks fks k :
  NoDup (l.*1) ->
  let r := fold_left (key_step tables) l (pks, fks) in
  let added :=
    if is_foreign_key tables k then (list_to_map l : TomlTable) !! k
    else None in
  r.1 !! k = from_option Some (pks !! k) added /\
  r.2 !! k = from_option Some (fks !! k) added.
Proof.
  revert pks fks. induction l as [|[field typ] l IH]; intros pks fks Hnd.
  - simpl. rewrite lookup_empty. by destruct (is_foreign_key tables k).
  - apply NoDup_cons in Hnd as [Hfresh Hnd]. cbn [fold_left].
    rewrite key_step_eq. simpl list_to_map.
    assert ((list_to_map l : TomlTable) !! field = None) as Hnone
      by by apply not_elem_of_list_to_map_1.
    destruct (is_foreign_key tables field) eqn:Hf.
    + destruct (IH (<[field := typ]> pks) (<[field := typ]> fks) Hnd)
        as [-> ->].
      destruct (decide (k = field)) as [->|Hne].
      * by rewrite Hf, Hnone, !lookup_insert_eq.
      * by rewrite !(lookup_insert_ne _ field k) by done.
    + destruct (IH pks fks Hnd) as [-> ->].
      destruct (decide (k = field)) as [->|Hne].
      * by rewrite Hf.
      * by rewrite !(lookup_insert_ne _ field k) by done.
Qed.

(** The first loop computes, in both maps and for every iteration order,
    the columns shaped like foreign keys. *)
Lemma key_loop_range o tables (t : TomlTable) :
  fold_left (key_step tables) (range_of o t) (∅, ∅) =
  (filter (fun entry => references_table tables entry.1) t,
   filter (fun entry => references_table tables entry.1) t).
Proof.
  pose proof (fun k => key_loop_lookup tables (range_of o t) ∅ ∅ k
                         (range_of_NoDup o t)) as Hk.
  simpl in Hk. rewrite range_of_to_map in Hk.
  destruct (fold_left _ _ _) as [pks fks]. simpl in Hk.
  assert (forall k, from_option Some ((∅ : TomlTable) !! k)
            (if is_foreign_key tables k then t !! k else None) =
          filter (fun entry => references_table tables entry.1) t !! k)
    as Hfilter.
  { intros k. rewrite lookup_empty. symmetry.
    destruct (is_foreign_key tables k) eqn:Hf.
    - destruct (t !! k) as [v|] eqn:Hv; simpl.
      + apply map_lookup_filter_Some. split; [done|].
        by apply is_foreign_key_spec.
      + apply map_lookup_filter_None. left. done.
    - simpl. apply map_lookup_filter_None. right. intros v _.
      simpl. rewrite <-is_foreign_key_spec. congruence. }
  f_equal; apply map_eq; intros k; destruct (Hk k) as [H1 H2];
    by rewrite <-Hfilter.
Qed.

Lemma ForeignKeys_TableFromToml o tables name (t : TomlTable) :
  ForeignKeys (TableFromToml o tables name t) =
  filter (fun entry => references_table tables entry.1) t.
Proof.
  unfold TableFromToml. rewrite key_loop_range. by destruct (t !! "id").
Qed.

(** C1: with a column named [id] the primary key is that column alone,
    whatever other columns look like, and upsert is off exactly when the
    type of [id] is [int]. *)
Theorem TableFromToml_id o (tables : TomlTables) name (t : TomlTable) v :
  t !! "id" = Some v ->
  let table := TableFromToml o tables name t in
  PrimaryKeys table = {[ "id" := v ]} /\
  dom (PrimaryKeys table) = {[ "id" ]} /\
  (forall column, column <> "id" -> PrimaryKeys table !! column = None) /\
  (Upsert table = false <-> v = "int") /\
  (Upsert table = true <-> v <> "int").
Proof.
  intros Hid. unfold TableFromToml. rewrite key_loop_range, Hid. simpl.
  split; [done|]. split; [by rewrite dom_singleton_L|].
  split; [intros column Hne; by apply lookup_singleton_ne|].
  destruct (String.eqb_spec v "int"); simpl; naive_solver.
Qed.

Lemma TableFromToml_id_witness :
  posts !! "id" = Some "int" /\
  let table := TableFromToml reverse_order blog_schema "posts" posts in
  PrimaryKeys table = {[ "id" := "int" ]} /\
  dom (PrimaryKeys table) = {[ "id" ]} /\
  (forall column, column <> "id" -> PrimaryKeys table !! column = None) /\
  (Upsert table = false <-> "int" = "int") /\
  (Upsert table = true <-> "int" <> "int").
Proof.
  split; [reflexivity|].
  apply (TableFromToml_id reverse_order blog_schema "posts" posts "int").
  reflexivity.
Defined.

(** C2: without a column named [id] the primary key is the set of foreign
    keys, which holds exactly the columns of the table whose name ends with
    [_id] and names, with [_id] replaced by [s], a table of the schema;
    upsert is on.  A column ending with [_id] whose table does not exist is
    in neither key set. *)
Theorem TableFromToml_no_id o (tables : TomlTables) name (t : TomlTable) :
  t !! "id" = None ->
  let table := TableFromToml o tables name t in
  PrimaryKeys table = ForeignKeys table /\
  (forall column typ,
     ForeignKeys table !! column = Some typ <->
     t !! column = Some typ /\
     exists base, column = base +:+ "_id" /\
                  is_Some (tables !! (base +:+ "s"))) /\
  Upsert table = true /\
  (forall base, tables !! (base +:+ "s") = None ->
     PrimaryKeys table !! (base +:+ "_id") = None /\
     ForeignKeys table !! (base +:+ "_id") = None).
Proof.
  intros Hid. unfold TableFromToml. rewrite key_loop_range, Hid. simpl.
  split; [done|]. split; [|split; [done|]].
  - intros column typ. by rewrite map_lookup_filter_Some.
  - intros base Hnone.
    assert (filter (fun entry => references_table tables entry.1) t
              !! (base +:+ "_id") = None) as Hf; [|done].
    apply map_lookup_filter_None. right. intros typ _ (base' & Heq & Hs).
    simpl in Heq. apply string_app_inv_tail in Heq as <-.
    rewrite Hnone in Hs. by destruct Hs.
Qed.

Lemma TableFromToml_no_id_witness :
  enrollments !! "id" = None /\
  let table :=
    TableFromToml trie_order school_schema "enrollments" enrollments in
  PrimaryKeys table = ForeignKeys table /\
  (forall column typ,
     ForeignKeys table !! column = Some typ <->
     enrollments !! column = Some typ /\
     exists base, column = base +:+ "_id" /\
                  is_Some (school_schema !! (base +:+ "s"))) /\
  Upsert table = true /\
  (forall base, school_schema !! (base +:+ "s") = None ->
     PrimaryKeys table !! (base +:+ "_id") = None /\
     ForeignKeys table !! (base +:+ "_id") = None).
Proof.
  split; [reflexivity|].
  apply (TableFromToml_no_id trie_order school_schema "enrollments").
  reflexivity.
Defined.

(** The scenario of the specification for a relation table. *)
Example enrollments_keys :
  let table :=
    TableFromToml reverse_order school_schema "enrollments" enrollments in
  PrimaryKeys table = enrollments /\ ForeignKeys table = enrollments /\
  Upsert table = true.
Proof. vm_compute. done. Qed.

(** ** Clause builders *)

(** The sorted column list: sorted, and holding each key once. *)
Lemma columns_sorted (m : TomlTable) : StronglySorted String.le (columns m).
Proof. apply (StronglySorted_merge_sort _). Qed.

Lemma columns_perm (m : TomlTable) : columns m ≡ₚ (map_to_list m).*1.
Proof. apply merge_sort_Permutation. Qed.

Lemma columns_elem (m : TomlTable) c : c ∈ columns m <-> is_Some (m !! c).
Proof.
  rewrite columns_perm, list_elem_of_fmap. split.
  - intros ([k v] & -> & Hkv). apply elem_of_map_to_list in Hkv. eauto.
  - intros [v Hv]. exists (c, v). by rewrite elem_of_map_to_list.
Qed.

Lemma columns_NoDup (m : TomlTable) : NoDup (columns m).
Proof. rewrite columns_perm. apply NoDup_fst_map_to_list. Qed.

Lemma columns_empty : columns ∅ = [].
Proof. reflexivity. Qed.

(** Whatever the iteration order, [sortKeys] returns the sorted column
    list: a sorted arrangement of distinct keys is unique. *)
Lemma sortKeys_columns o (k : TomlTable) : sortKeys o k = columns k.
Proof.
  apply (StronglySorted_unique String.le).
  - apply (StronglySorted_merge_sort _).
  - apply columns_sorted.
  - unfold sortKeys. rewrite merge_sort_Permutation, columns_perm.
    by rewrite (range_of_perm o _ k).
Qed.

Lemma Join_nil sep : strings_Join [] sep = EmptyString.
Proof. reflexivity. Qed.

Lemma Join_cons x xs sep :
  strings_Join (x :: xs) sep = x +:+ cat ((fun y => sep +:+ y) <$> xs).
Proof.
  unfold strings_Join. revert x. induction xs as [|y xs IH]; intros x.
  - simpl. by rewrite string_app_empty_r.
  - change (String.concat sep (x :: y :: xs))
      with (x +:+ (sep +:+ String.concat sep (y :: xs))).
    rewrite IH, fmap_cons, cat_cons. by rewrite string_app_assoc.
Qed.

Lemma condition_loop_rest sep keys s :
  condition_loop sep keys false s =
  s +:+ cat ((fun y => sep +:+ y) <$> ((fun c => c +:+ " = ?") <$> keys)).
Proof.
  revert s. induction keys as [|key keys IH]; intros s.
  - simpl. by rewrite string_app_empty_r.
  - cbn [condition_loop]. rewrite IH, !fmap_cons, cat_cons.
    by rewrite !string_app_assoc.
Qed.

Lemma condition_loop_Join sep keys :
  condition_loop sep keys true EmptyString =
  strings_Join ((fun c => c +:+ " = ?") <$> keys) sep.
Proof.
  destruct keys as [|key keys]; [done|].
  cbn [condition_loop]. by rewrite condition_loop_rest, fmap_cons, Join_cons.
Qed.

Lemma fold_left_append {A B : Type} (f : A -> B) (l : list A) (acc : list B) :
  fold_left (fun s x => s ++ [f x]) l acc = acc ++ (f <$> l).
Proof.
  revert acc. induction l as [|x l IH]; intros acc; simpl.
  - by rewrite app_nil_r.
  - by rewrite IH, <-app_assoc.
Qed.

Lemma JoinCondition_columns o (keys : TomlTable) sep :
  JoinCondition o keys sep =
  strings_Join ((fun c => c +:+ " = ?") <$> columns keys) sep.
Proof.
  unfold JoinCondition. by rewrite sortKeys_columns, condition_loop_Join.
Qed.

Lemma JoinArguments_columns o (keys : TomlTable) structName :
  JoinArguments o keys structName =
  strings_Join (argument structName <$> columns keys) ", ".
Proof.
  unfold JoinArguments.
  by rewrite sortKeys_columns, (fold_left_append (argument structName)).
Qed.

Lemma Marks_size o (keys : TomlTable) :
  Marks o keys = strings_Join (replicate (size keys) "?") ", ".
Proof.
  unfold Marks. rewrite (fold_left_append (fun _ => "?")). simpl. f_equal.
  rewrite (const_fmap _ _ "?") by done. f_equal.
  rewrite (range_of_perm o _ keys). apply length_map_to_list.
Qed.

(** [FieldsWithoutID] is the map without its [id] entry, whatever the
    iteration order. *)
Lemma without_id_loop (l : list (string * string)) (res : TomlTable) k :
  NoDup (l.*1) ->
  fold_left
    (fun (res : TomlTable) '(field, typ) =>
       if String.eqb field "id" then res else <[field := typ]> res)
    l res !! k =
  if decide (k = "id") then res !! k
  else from_option Some (res !! k) ((list_to_map l : TomlTable) !! k).
Proof.
  revert res. induction l as [|[field typ] l IH]; intros res Hnd.
  - simpl. rewrite lookup_empty. by case_decide.
  - apply NoDup_cons in Hnd as [Hfresh Hnd]. cbn [fold_left].
    simpl list_to_map.
    assert ((list_to_map l : TomlTable) !! field = None) as Hnone
      by by apply not_elem_of_list_to_map_1.
    rewrite IH by done.
    destruct (String.eqb_spec field "id") as [->|Hne].
    + case_decide as Hk; [done|]. by rewrite lookup_insert_ne.
    + case_decide as Hk.
      * subst k. by rewrite lookup_insert_ne.
      * destruct (decide (k = field)) as [->|Hkf].
        -- by rewrite Hnone, !lookup_insert_eq.
        -- by rewrite !(lookup_insert_ne _ field k).
Qed.

Lemma FieldsWithoutID_delete o t :
  FieldsWithoutID o t = delete "id" (Fields t).
Proof.
  apply map_eq. intros k. unfold FieldsWithoutID.
  rewrite without_id_loop by apply range_of_NoDup.
  rewrite range_of_to_map, lookup_empty. case_decide as Hk.
  - subst k. by rewrite lookup_delete_eq.
  - rewrite lookup_delete_ne by done. by destruct (Fields t !! k).
Qed.

(** ** Independence of the iteration order *)

Lemma sortKeys_order o1 o2 (k : TomlTable) : sortKeys o1 k = sortKeys o2 k.
Proof. by rewrite !sortKeys_columns. Qed.

Lemma JoinCondition_order o1 o2 (keys : TomlTable) sep :
  JoinCondition o1 keys sep = JoinCondition o2 keys sep.
Proof. by rewrite !JoinCondition_columns. Qed.

Lemma JoinArguments_order o1 o2 (keys : TomlTable) structName :
  JoinArguments o1 keys structName = JoinArguments o2 keys structName.
Proof. by rewrite !JoinArguments_columns. Qed.

Lemma Marks_order o1 o2 (keys : TomlTable) : Marks o1 keys = Marks o2 keys.
Proof. by rewrite !Marks_size. Qed.

Lemma FieldsWithoutID_order o1 o2 t :
  FieldsWithoutID o1 t = FieldsWithoutID o2 t.
Proof. by rewrite !FieldsWithoutID_delete. Qed.

Lemma TableFromToml_order o1 o2 tables name (t : TomlTable) :
  TableFromToml o1 tables name t = TableFromToml o2 tables name t.
Proof. unfold TableFromToml. by rewrite !key_loop_range. Qed.

Lemma UpsertTemplate_order o1 o2 t : UpsertTemplate o1 t = UpsertTemplate o2 t.
Proof.
  unfold UpsertTemplate.
  by rewrite !(JoinArguments_order o1 o2), (JoinCondition_order o1 o2),
    (Marks_order o1 o2).
Qed.

Lemma UpdateOrInsertTemplate_order o1 o2 t :
  UpdateOrInsertTemplate o1 t = UpdateOrInsertTemplate o2 t.
Proof.
  unfold UpdateOrInsertTemplate.
  rewrite (FieldsWithoutID_order o1 o2).
  by rewrite !(JoinArguments_order o1 o2), !(JoinCondition_order o1 o2),
    (Marks_order o1 o2).
Qed.

Lemma TableTemplate_order o1 o2 t : TableTemplate o1 t = TableTemplate o2 t.
Proof.
  unfold TableTemplate.
  rewrite (UpsertTemplate_order o1 o2), (UpdateOrInsertTemplate_order o1 o2).
  by rewrite !(JoinArguments_order o1 o2), !(JoinCondition_order o1 o2).
Qed.

Lemma Execute_order o1 o2 t : Execute o1 t = Execute o2 t.
Proof.
  unfold Execute, FileTemplate. by rewrite (TableTemplate_order o1 o2).
Qed.

(** The two orders of the model do differ on a table of the spec. *)
Example orders_differ :
  range_of trie_order posts <> range_of reverse_order posts.
Proof. vm_compute. discriminate. Qed.

(** ** Template execution *)

Lemma runs_ret {A : Type} (a : A) : runs (mret a) EmptyString a.
Proof. reflexivity. Qed.

Lemma runs_call {A : Type} (a : A) : runs (call (Some a)) EmptyString a.
Proof. reflexivity. Qed.

Lemma runs_bind {A B : Type} (m : Tmpl A) (f : A -> Tmpl B) w a w' b :
  runs m w a -> runs (f a) w' b -> runs (m ≫= f) (w +:+ w') b.
Proof.
  unfold runs. intros -> Hf. unfold mbind, Tmpl_bind. by rewrite Hf.
Qed.

Lemma runs_for_each {A : Type} (l : list A) (body : A -> Tmpl unit)
    (f : A -> string) :
  (forall x, x ∈ l -> runs (body x) (f x) tt) ->
  runs (for_each l body) (cat (f <$> l)) tt.
Proof.
  induction l as [|x l IH]; intros Hbody; [done|].
  cbn [for_each]. rewrite fmap_cons, cat_cons. eapply runs_bind.
  - apply Hbody. by left.
  - apply IH. intros y Hy. apply Hbody. by right.
Qed.

Lemma runs_for_each_emit {A : Type} (l : list A) (f : A -> string) :
  runs (for_each l (fun x => emit (f x))) (cat (f <$> l)) tt.
Proof. by apply runs_for_each. Qed.

Lemma runs_emit s : runs (emit s) s tt.
Proof. reflexivity. Qed.

Lemma template_range_elem (m : TomlTable) k v :
  (k, v) ∈ template_range m <-> m !! k = Some v.
Proof.
  unfold template_range. rewrite merge_sort_Permutation.
  apply elem_of_map_to_list.
Qed.

Lemma ForeignKey_app base :
  ForeignKey (base +:+ "_id") = Some (SnakeToGocase base true).
Proof. unfold ForeignKey. by rewrite slice_to_app. Qed.

Lemma runs_fk_getter t name fk fktype fke :
  ForeignKey fk = Some fke ->
  runs (fk_getter t name (fk, fktype))
    (fk_getter_output t name (fk, fktype)) tt.
Proof.
  intros Hfk. unfold fk_getter, fk_getter_output, runs. rewrite Hfk.
  reflexivity.
Qed.

Lemma fk_getter_output_eq t name fk fktype fke :
  ForeignKey fk = Some fke ->
  fk_getter_output t name (fk, fktype) =
  LF +:+ (fk_getter_head name fke +:+
          (fk_getter_text (Name t) name fke fk fktype +:+ LF)).
Proof. intros Hfk. unfold fk_getter_output. rewrite Hfk. reflexivity. Qed.

(** The foreign keys of a derived table all end with [_id], so their
    getters can be named. *)
Lemma ForeignKeys_named o tables name (t : TomlTable) fk fktype :
  ForeignKeys (TableFromToml o tables name t) !! fk = Some fktype ->
  t !! fk = Some fktype /\
  exists base, fk = base +:+ "_id" /\
    ForeignKey fk = Some (SnakeToGocase base true).
Proof.
  rewrite ForeignKeys_TableFromToml, map_lookup_filter_Some.
  intros [Hfk (base & Heq & _)]. simpl in Heq. subst fk. split; [done|].
  exists base. split; [done|]. apply ForeignKey_app.
Qed.

(** ** Finding a part in a text *)

Lemma Contains_slice l i n sub :
  cat (take n (drop i l)) = sub -> strings_Contains (cat l) sub = true.
Proof.
  intros <-. rewrite <-(take_drop i l) at 1.
  rewrite <-(take_drop n (drop i l)) at 1. apply Contains_cat.
Qed.

Lemma Contains_cat_fmap {A : Type} (f : A -> string) (l : list A) x sub :
  x ∈ l -> strings_Contains (f x) sub = true ->
  strings_Contains (cat (f <$> l)) sub = true.
Proof.
  intros (l1 & l2 & ->)%list_elem_of_split Hx.
  rewrite fmap_app, fmap_cons, cat_app, cat_cons.
  by apply Contains_app_r, Contains_app_l.
Qed.

Lemma Contains_if (b : bool) s1 s2 sub :
  strings_Contains s1 sub = true -> strings_Contains s2 sub = true ->
  strings_Contains (if b then s1 else s2) sub = true.
Proof. by destruct b. Qed.

Lemma runs_if {A : Type} (b : bool) (m1 m2 : Tmpl A) w1 w2 a :
  runs m1 w1 a -> runs m2 w2 a ->
  runs (if b then m1 else m2) (if b then w1 else w2) a.
Proof. by destruct b. Qed.

(** Glue the pieces of a text, leaving what is not a literal as it is. *)
Ltac glue := cbv [cat fold_right firstn skipn String.append LF DQ TICK].

(** Try the slices of [n] pieces that start at [i], [i+1], ... *)
Ltac slice_from i fuel n :=
  first
    [ apply (Contains_slice _ i n); glue; reflexivity
    | lazymatch fuel with
      | S ?fuel' => slice_from (S i) fuel' n
      end ].

(** Walk down the appends of a text until [tac] finds the part. *)
Ltac locate tac :=
  lazymatch goal with
  | |- strings_Contains (_ +:+ _) _ = true =>
      first [ apply Contains_app_l; locate tac
            | apply Contains_app_r; locate tac ]
  | |- strings_Contains (if _ then _ else _) _ = true =>
      apply Contains_if; locate tac
  | |- _ => tac
  end.

(** Execute a template, given that [StructName] and [ForeignKey] succeed
    where the template calls them. *)
Ltac run_template :=
  repeat first
    [ apply runs_emit
    | apply runs_ret
    | apply runs_call
    | apply runs_for_each_emit
    | apply runs_if
    | eapply runs_bind; [|cbv beta] ].

Section derived.
Context (o : MapOrder) (T : Table) (sname : string).
Hypothesis Hname : StructName (Name T) = Some sname.
Hypothesis Hfks : forall fk fktype,
  ForeignKeys T !! fk = Some fktype -> is_Some (ForeignKey fk).

Lemma runs_fk_getters :
  runs (for_each (template_range (ForeignKeys T)) (fk_getter T sname))
    (cat (fk_getter_output T sname <$> template_range (ForeignKeys T))) tt.
Proof.
  apply runs_for_each. intros [fk fktype] Hin%template_range_elem.
  destruct (Hfks _ _ Hin) as [fke Hfke]. by eapply runs_fk_getter.
Qed.

(** A table whose name is not empty and whose foreign keys can be named
    is rendered without error. *)
Lemma Execute_runs : exists text, runs (Execute o T) text tt.
Proof.
  eexists.
  unfold Execute, FileTemplate, TableTemplate, UpsertTemplate,
    UpdateOrInsertTemplate.
  rewrite Hname.
  repeat first [ apply runs_fk_getters | progress run_template ].
Qed.

(** With an empty primary key the two WHERE clauses are rendered empty. *)
Lemma Execute_empty_keys :
  PrimaryKeys T = ∅ ->
  exists text, Execute o T = (text, Some tt) /\
    strings_Contains text
      (cat ["SELECT * FROM "; Name T; " WHERE "; DQ; ", ); err != nil {"])
      = true /\
    strings_Contains text
      (cat ["DELETE FROM "; Name T; " WHERE "; DQ; ", )"; LF]) = true.
Proof.
  intros Hpk. eexists. split.
  { unfold Execute, FileTemplate, TableTemplate, UpsertTemplate,
      UpdateOrInsertTemplate.
    rewrite Hname.
    repeat first [ apply runs_fk_getters | progress run_template ]. }
  rewrite Hpk, !JoinCondition_columns, !JoinArguments_columns, columns_empty.
  rewrite !fmap_nil, !Join_nil.
  split.
  - locate ltac:(slice_from 0 40 8).
  - locate ltac:(slice_from 0 40 9).
Qed.

(** The upsert statement of a table rendered with the upsert template. *)
Lemma Execute_upsert :
  Upsert T = true ->
  exists text, Execute o T = (text, Some tt) /\
    strings_Contains text
      (cat [
         "    _, err := db.Exec("; DQ; "INSERT INTO "; Name T;
         "("; strings_Join (columns (Fields T)) ", ";
         ") VALUES ("; strings_Join (replicate (size (Fields T)) "?") ", ";
         ") ON CONFLICT ("; strings_Join (columns (PrimaryKeys T)) ", ";
         ") DO UPDATE SET ";
         strings_Join ((fun c => c +:+ " = ?") <$> columns (Fields T)) ", ";
         DQ; ","; LF;
         "                        ";
         strings_Join (argument "r" <$> columns (Fields T)) ", "; ", ";
         strings_Join (argument "r" <$> columns (Fields T)) ", "; ")"; LF ])
      = true.
Proof.
  intros Hupsert. eexists. split.
  { unfold Execute, FileTemplate, TableTemplate, UpsertTemplate.
    rewrite Hname, Hupsert.
    repeat first [ apply runs_fk_getters | progress run_template ]. }
  rewrite !JoinCondition_columns, !JoinArguments_columns, Marks_size.
  replace (argument "-" <$> columns (Fields T)) with (columns (Fields T))
    by (symmetry; apply list_fmap_id).
  replace (argument "-" <$> columns (PrimaryKeys T))
    with (columns (PrimaryKeys T)) by (symmetry; apply list_fmap_id).
  locate ltac:(slice_from 0 40 21).
Qed.

(** Each foreign key has its getter. *)
Lemma Execute_fk_getter fk fktype rel :
  ForeignKeys T !! fk = Some fktype ->
  ForeignKey fk = Some rel ->
  exists text, Execute o T = (text, Some tt) /\
    strings_Contains text
      (cat ["func "; fk_getter_name rel sname; "(db db.DBContext, ";
            param fk; " "; fktype; ") ([]*"; sname; ", error) {"; LF])
      = true.
Proof.
  intros Hin%template_range_elem Hrel. eexists. split.
  { unfold Execute, FileTemplate, TableTemplate, UpsertTemplate,
      UpdateOrInsertTemplate.
    rewrite Hname.
    repeat first [ apply runs_fk_getters | progress run_template ]. }
  locate ltac:(
    eapply Contains_cat_fmap; [exact Hin|];
    rewrite (fk_getter_output_eq _ _ _ _ _ Hrel); unfold fk_getter_text;
    locate ltac:(slice_from 0 40 10)).
Qed.
End derived.

Lemma Name_TableFromToml o tables name (t : TomlTable) :
  Name (TableFromToml o tables name t) = name.
Proof.
  unfold TableFromToml. destruct (fold_left _ _ _). by destruct (t !! "id").
Qed.

Lemma ForeignKeys_can_be_named o tables name (t : TomlTable) fk fktype :
  ForeignKeys (TableFromToml o tables name t) !! fk = Some fktype ->
  is_Some (ForeignKey fk).
Proof. intros (_ & base & _ & ->)%ForeignKeys_named. eauto. Qed.

(** C9: on the empty column set the three clause builders return the
    empty string, for every separator and receiver; so a table with an
    empty primary key is rendered, without error, with getters and a delete
    method whose WHERE clause is empty. *)
Theorem clause_builders_empty (o : MapOrder) (sep structName : string) :
  (JoinCondition o ∅ sep = EmptyString /\
   Marks o ∅ = EmptyString /\
   JoinArguments o ∅ structName = EmptyString) /\
  forall (T : Table) (sname : string),
    StructName (Name T) = Some sname ->
    (forall fk fktype,
       ForeignKeys T !! fk = Some fktype -> is_Some (ForeignKey fk)) ->
    PrimaryKeys T = ∅ ->
    exists text, Execute o T = (text, Some tt) /\
      strings_Contains text
        (cat ["SELECT * FROM "; Name T; " WHERE "; DQ; ", ); err != nil {"])
        = true /\
      strings_Contains text
        (cat ["DELETE FROM "; Name T; " WHERE "; DQ; ", )"; LF]) = true.
Proof.
  split.
  - rewrite JoinCondition_columns, JoinArguments_columns, Marks_size.
    by rewrite columns_empty.
  - intros T sname Hname Hfks Hpk. by apply (Execute_empty_keys o T sname).
Qed.

Lemma clause_builders_empty_witness :
  let T := TableFromToml trie_order logs_schema "logs" logs in
  StructName (Name T) = Some "Log" /\
  (forall fk fktype,
     ForeignKeys T !! fk = Some fktype -> is_Some (ForeignKey fk)) /\
  PrimaryKeys T = ∅ /\
  exists text, Execute trie_order T = (text, Some tt) /\
    strings_Contains text
      (cat ["SELECT * FROM "; Name T; " WHERE "; DQ; ", ); err != nil {"])
      = true /\
    strings_Contains text
      (cat ["DELETE FROM "; Name T; " WHERE "; DQ; ", )"; LF]) = true.
Proof.
  assert (forall fk fktype,
    ForeignKeys (TableFromToml trie_order logs_schema "logs" logs) !! fk
      = Some fktype -> is_Some (ForeignKey fk)) as Hfks
    by apply ForeignKeys_can_be_named.
  split; [reflexivity|]. split; [exact Hfks|]. split; [reflexivity|].
  apply (proj2 (clause_builders_empty trie_order EmptyString EmptyString)
           _ "Log"); [reflexivity|exact Hfks|reflexivity].
Defined.

(** C5, as stated, fails: for the table [users] with a text [id], rendered
    with the upsert template, the SET clause names the key column too. *)
Lemma upsert_sets_key_column :
  let T := TableFromToml trie_order users_schema "users" users_text_id in
  let text := (Execute trie_order T).1 in
  Upsert T = true /\ PrimaryKeys T = {[ "id" := "text" ]} /\
  upsert_set_clause_spec T = "name = ?" /\
  strings_Contains text
    (cat [") DO UPDATE SET "; upsert_set_clause_spec T; DQ]) = false /\
  strings_Contains text (cat [") DO UPDATE SET id = ?, name = ?"; DQ]) = true.
Proof. vm_compute. done. Qed.

(** C5, amended: a table rendered with the upsert template gets one
    statement [INSERT ... ON CONFLICT (<primary keys>) DO UPDATE SET ...]
    whose SET clause has one [column = ?] for every column of the table,
    the key columns included, in sorted order; its arguments are the full
    column set twice. *)
Theorem upsert_statement (o : MapOrder) (T : Table) (sname : string) :
  StructName (Name T) = Some sname ->
  (forall fk fktype,
     ForeignKeys T !! fk = Some fktype -> is_Some (ForeignKey fk)) ->
  Upsert T = true ->
  (exists text, Execute o T = (text, Some tt) /\
     strings_Contains text
       (cat [
          "    _, err := db.Exec("; DQ; "INSERT INTO "; Name T;
          "("; strings_Join (columns (Fields T)) ", ";
          ") VALUES ("; strings_Join (replicate (size (Fields T)) "?") ", ";
          ") ON CONFLICT ("; strings_Join (columns (PrimaryKeys T)) ", ";
          ") DO UPDATE SET ";
          strings_Join ((fun c => c +:+ " = ?") <$> columns (Fields T)) ", ";
          DQ; ","; LF;
          "                        ";
          strings_Join (argument "r" <$> columns (Fields T)) ", "; ", ";
          strings_Join (argument "r" <$> columns (Fields T)) ", "; ")"; LF ])
       = true) /\
  (forall c, is_Some (Fields T !! c) ->
     c +:+ " = ?" ∈ (fun c => c +:+ " = ?") <$> columns (Fields T)) /\
  (forall c, argument "r" c = "r." +:+ SnakeToGocase c true).
Proof.
  intros Hname Hfks Hupsert.
  split; [by apply (Execute_upsert o T sname)|]. split.
  - intros c Hc. apply list_elem_of_fmap. exists c. split; [done|].
    by apply columns_elem.
  - done.
Qed.

Lemma upsert_statement_witness :
  let T := TableFromToml trie_order users_schema "users" users_text_id in
  StructName (Name T) = Some "User" /\
  (forall fk fktype,
     ForeignKeys T !! fk = Some fktype -> is_Some (ForeignKey fk)) /\
  Upsert T = true /\
  exists text, Execute trie_order T = (text, Some tt) /\
    strings_Contains text
      (cat [
         "    _, err := db.Exec("; DQ; "INSERT INTO "; Name T;
         "("; strings_Join (columns (Fields T)) ", ";
         ") VALUES ("; strings_Join (replicate (size (Fields T)) "?") ", ";
         ") ON CONFLICT ("; strings_Join (columns (PrimaryKeys T)) ", ";
         ") DO UPDATE SET ";
         strings_Join ((fun c => c +:+ " = ?") <$> columns (Fields T)) ", ";
         DQ; ","; LF;
         "                        ";
         strings_Join (argument "r" <$> columns (Fields T)) ", "; ", ";
         strings_Join (argument "r" <$> columns (Fields T)) ", "; ")"; LF ])
      = true.
Proof.
  assert (forall fk fktype,
    ForeignKeys (TableFromToml trie_order users_schema "users" users_text_id)
      !! fk = Some fktype -> is_Some (ForeignKey fk)) as Hfks
    by apply ForeignKeys_can_be_named.
  split; [reflexivity|]. split; [exact Hfks|]. split; [reflexivity|].
  apply (upsert_statement trie_order _ "User"); [reflexivity|exact Hfks|].
  reflexivity.
Defined.

(** The statement of the scenario, spelled out. *)
Example users_upsert_statement :
  strings_Contains
    (Execute trie_order
       (TableFromToml trie_order users_schema "users" users_text_id)).1
    (cat ["INSERT INTO users(id, name) VALUES (?, ?) ";
          "ON CONFLICT (id) DO UPDATE SET id = ?, name = ?"; DQ; ","; LF;
          "                        r.ID, r.Name, r.ID, r.Name)"]) = true.
Proof. vm_compute. reflexivity. Qed.

(** C7, as stated, fails: the file rendered for [posts] has no function
    [GetByUserPosts]; the getter for [user_id] is [GetUserPosts]. *)
Lemma posts_getter_is_not_GetBy :
  let T := TableFromToml trie_order blog_schema "posts" posts in
  PrimaryKeys T = {[ "id" := "int" ]} /\
  ForeignKeys T = {[ "user_id" := "int" ]} /\ Upsert T = false /\
  (Execute trie_order T).2 = Some tt /\
  strings_Contains (Execute trie_order T).1 "GetByUserPosts" = false /\
  strings_Contains (Execute trie_order T).1
    "func GetUserPosts(db db.DBContext, userID int) ([]*Post, error) {" = true.
Proof. vm_compute. done. Qed.

(** C7, amended: for every foreign key [<relation>_id] of a table the
    rendered file has a getter named [Get], the exported relation, the
    struct name and [s] ([GetUserPosts] for [user_id] of [posts]); it takes
    the storage context and the foreign key as a parameter and returns a
    list of records. *)
Theorem foreign_key_getter_name (o : MapOrder) (tables : TomlTables)
    (name : string) (t : TomlTable) (sname fk fktype : string) :
  StructName name = Some sname ->
  ForeignKeys (TableFromToml o tables name t) !! fk = Some fktype ->
  exists base text,
    fk = base +:+ "_id" /\
    Execute o (TableFromToml o tables name t) = (text, Some tt) /\
    strings_Contains text
      (cat ["func "; cat ["Get"; SnakeToGocase base true; sname; "s"];
            "(db db.DBContext, "; param fk; " "; fktype;
            ") ([]*"; sname; ", error) {"; LF]) = true.
Proof.
  intros Hname Hfk.
  destruct (ForeignKeys_named _ _ _ _ _ _ Hfk) as (_ & base & -> & Hrel).
  destruct (Execute_fk_getter o (TableFromToml o tables name t) sname)
    with (fk := base +:+ "_id") (fktype := fktype)
         (rel := SnakeToGocase base true) as (text & Hrun & Hhas); try done.
  - by rewrite Name_TableFromToml.
  - apply ForeignKeys_can_be_named.
  - by exists base, text.
Qed.

Lemma foreign_key_getter_name_witness :
  StructName "posts" = Some "Post" /\
  ForeignKeys (TableFromToml trie_order blog_schema "posts" posts)
    !! "user_id" = Some "int" /\
  exists base text,
    "user_id" = base +:+ "_id" /\
    Execute trie_order (TableFromToml trie_order blog_schema "posts" posts)
      = (text, Some tt) /\
    strings_Contains text
      (cat ["func "; cat ["Get"; SnakeToGocase base true; "Post"; "s"];
            "(db db.DBContext, "; param "user_id"; " "; "int";
            ") ([]*"; "Post"; ", error) {"; LF]) = true.
Proof.
  split; [reflexivity|]. split; [reflexivity|].
  apply (foreign_key_getter_name trie_order blog_schema "posts" posts);
    reflexivity.
Defined.

(** ** The driver *)

Lemma generated_filename_inj name1 name2 :
  generated_filename name1 = generated_filename name2 -> name1 = name2.
Proof.
  unfold generated_filename. rewrite !cat_cons. intros H.
  apply String.app_inj in H.
  change (cat ["_generated.go"]) with "_generated.go" in H.
  by apply string_app_inv_tail in H.
Qed.

#[global] Instance generated_filename_Inj : Inj (=) (=) generated_filename.
Proof. intros name1 name2. apply generated_filename_inj. Qed.


Lemma range_of_entry o (tables : TomlTables) name fields :
  (name, fields) ∈ range_of o tables <-> tables !! name = Some fields.
Proof. rewrite (range_of_perm o _ tables). apply elem_of_map_to_list. Qed.

Lemma main_decoded o env (tables : TomlTables) w :
  main o env (Some tables) w =
  each_table (handle_table o env tables) (range_of o tables)
    {| files := delete "models/*_generated.go" (files w); log := log w |}.
Proof. reflexivity. Qed.

Lemma Execute_name_error o T :
  StructName (Name T) = None -> (Execute o T).2 = None.
Proof.
  intros Hname. unfold Execute, FileTemplate, TableTemplate.
  rewrite Hname. reflexivity.
Qed.

Ltac unfold_run :=
  unfold handle_table, Create, execute_to_file, Close, run_tool, Printf,
    log_Fatal, write_file, remove_file, mbind, Run_bind, mret, Run_ret in *.




(** Handling a table that can be generated. *)
Lemma handle_table_Some o env tables name fields content w :
  generated_file o env tables (name, fields) = Some content ->
  handle_table o env tables (name, fields) w =
  ({| files := <[generated_filename name := content]> (files w);
      log := log w ++ [Handling (generated_filename name);
                       Generated name (generated_filename name)] |},
   Some tt).
Proof.
  unfold generated_file. unfold_run. simpl.
  destruct (Execute o _) as [text result]. simpl.
  destruct (create_fails env _); [done|].
  destruct (write_limit env _) as [n|]; [destruct (n <? _); [done|]|];
    (destruct result as [[]|]; [|done]); simpl;
    (destruct (close_fails env _); [done|]); simpl;
    rewrite lookup_insert_eq;
    (destruct (gofmt env _ text) as [formatted|]; [|done]); simpl;
    rewrite lookup_insert_eq; intros ->; simpl;
    by rewrite !insert_insert_eq, <-!app_assoc.
Qed.

(** The template of a derived table fails for the empty table name and
    for no other. *)
Lemma Execute_error_iff o tables name (fields : TomlTable) :
  (Execute o (TableFromToml o tables name fields)).2 = None <->
  name = EmptyString.
Proof.
  rewrite <-StructName_None. split.
  - destruct (StructName name) as [sname|] eqn:Hname; [|done].
    destruct (Execute_runs o (TableFromToml o tables name fields) sname)
      as [text Hrun].
    + by rewrite Name_TableFromToml.
    + apply ForeignKeys_can_be_named.
    + by rewrite Hrun.
  - intros Hname. apply Execute_name_error. by rewrite Name_TableFromToml.
Qed.



(** The same happens when the disk is full: with no room for the file of
    [posts], visited first, the file of [users] is never written. *)
Example full_disk_stops_the_run :
  let env :=
    {| create_fails := fun _ => false;
       write_limit := fun _ => Some 0;
       close_fails := fun _ => false;
       gofmt := fun _ content => Some content;
       goimports := fun _ content => Some content |} in
  let r := main reverse_order env (Some blog_schema) empty_world in
  (range_of reverse_order blog_schema).*1 = ["posts"; "users"] /\
  exit_status r = 1%Z /\
  log r.1 = [Handling "models/posts_generated.go";
             Fatal (ExecuteError "models/posts_generated.go")] /\
  files r.1 !! "models/users_generated.go" = None.
Proof. vm_compute. done. Qed.




(** C3, as stated, fails: the table [logs] has an empty primary key, and
    [main] renders its file and returns, with no error. *)
Lemma empty_primary_key_is_rendered :
  let T := TableFromToml trie_order logs_schema "logs" logs in
  let r := main trie_order quiet_env (Some logs_schema) empty_world in
  PrimaryKeys T = ∅ /\
  exit_status r = 0%Z /\
  log r.1 = [Handling "models/logs_generated.go";
             Generated "logs" "models/logs_generated.go"] /\
  files r.1 !! "models/logs_generated.go" = Some (Execute trie_order T).1 /\
  strings_Contains (Execute trie_order T).1
    (cat ["SELECT * FROM logs WHERE "; DQ; ", ); err != nil {"]) = true.
Proof. vm_compute. done. Qed.

(** C3, amended: a table whose derivation gives an empty primary key is
    not rejected.  Derivation returns it with upsert on; for a table name
    that is not empty its file is rendered without error, with empty WHERE
    clauses; and, when the file operations and the two tools succeed, the
    loop of [main] writes the file and goes on. *)
Theorem empty_primary_key_not_rejected (o : MapOrder) (env : Env)
    (tables : TomlTables) (name : string) (fields : TomlTable)
    (sname formatted imported : string) (w : World) :
  let T := TableFromToml o tables name fields in
  let filename := generated_filename name in
  StructName name = Some sname ->
  PrimaryKeys T = ∅ ->
  create_fails env filename = false ->
  write_limit env filename = None ->
  close_fails env filename = false ->
  gofmt env filename (Execute o T).1 = Some formatted ->
  goimports env filename formatted = Some imported ->
  Upsert T = true /\
  (exists text, Execute o T = (text, Some tt) /\
     strings_Contains text
       (cat ["SELECT * FROM "; name; " WHERE "; DQ; ", ); err != nil {"])
       = true /\
     strings_Contains text
       (cat ["DELETE FROM "; name; " WHERE "; DQ; ", )"; LF]) = true) /\
  exists w',
    handle_table o env tables (name, fields) w = (w', Some tt) /\
    files w' !! filename = Some imported /\
    log w' = log w ++ [Handling filename; Generated name filename].
Proof.
  intros T filename Hname Hpk Hcreate Hlimit Hclose Hfmt Himports.
  assert (Upsert T = true) as Hupsert.
  { subst T. revert Hpk. unfold TableFromToml.
    destruct (fold_left _ _ _) as [pks fks].
    destruct (fields !! "id") as [v|]; simpl; [|done].
    intros Hpk. apply (f_equal (fun m => m !! "id")) in Hpk.
    by rewrite lookup_singleton_eq, lookup_empty in Hpk. }
  destruct (Execute_empty_keys o T sname) as (text & Hrun & Hget & Hdel);
    [by subst T; rewrite Name_TableFromToml
    |subst T; apply ForeignKeys_can_be_named|done|].
  replace (Name T) with name in * by (subst T; by rewrite Name_TableFromToml).
  split; [done|]. split; [by exists text|].
  unfold_run. fold T. fold filename. rewrite Hrun in *. simpl in Hfmt.
  rewrite Hcreate, Hlimit, Hclose. simpl.
  rewrite lookup_insert_eq, Hfmt. simpl.
  rewrite lookup_insert_eq, Himports. simpl.
  eexists. split; [reflexivity|]. simpl. rewrite lookup_insert_eq.
  split; [done|]. by rewrite <-!app_assoc.
Qed.

Lemma empty_primary_key_not_rejected_witness :
  let T := TableFromToml trie_order logs_schema "logs" logs in
  let filename := generated_filename "logs" in
  StructName "logs" = Some "Log" /\
  PrimaryKeys T = ∅ /\
  create_fails quiet_env filename = false /\
  write_limit quiet_env filename = None /\
  close_fails quiet_env filename = false /\
  gofmt quiet_env filename (Execute trie_order T).1
    = Some (Execute trie_order T).1 /\
  goimports quiet_env filename (Execute trie_order T).1
    = Some (Execute trie_order T).1 /\
  Upsert T = true /\
  (exists text, Execute trie_order T = (text, Some tt) /\
     strings_Contains text
       (cat ["SELECT * FROM "; "logs"; " WHERE "; DQ; ", ); err != nil {"])
       = true /\
     strings_Contains text
       (cat ["DELETE FROM "; "logs"; " WHERE "; DQ; ", )"; LF]) = true) /\
  exists w',
    handle_table trie_order quiet_env logs_schema ("logs", logs) empty_world
      = (w', Some tt) /\
    files w' !! filename = Some (Execute trie_order T).1 /\
    log w' = log empty_world ++ [Handling filename; Generated "logs" filename].
Proof.
  do 7 (split; [reflexivity|]).
  apply (empty_primary_key_not_rejected trie_order quiet_env logs_schema
           "logs" logs "Log"
           (Execute trie_order
              (TableFromToml trie_order logs_schema "logs" logs)).1
           (Execute trie_order
              (TableFromToml trie_order logs_schema "logs" logs)).1
           empty_world); reflexivity.
Defined.

(** ** Whole runs *)

Lemma generated_file_order o1 o2 env tables entry :
  generated_file o1 env tables entry = generated_file o2 env tables entry.
Proof.
  unfold generated_file.
  by rewrite (TableFromToml_order o1 o2), (Execute_order o1 o2).
Qed.

Lemma handle_table_None o env tables name fields w :
  generated_file o env tables (name, fields) = None ->
  (handle_table o env tables (name, fields) w).2 = None.
Proof.
  unfold generated_file. unfold_run. simpl.
  destruct (Execute o _) as [text result]. simpl.
  destruct (create_fails env _); [done|].
  destruct (write_limit env _) as [n|]; [destruct (n <? _); [done|]|];
    (destruct result as [[]|]; [|done]); simpl;
    (destruct (close_fails env _); [done|]); simpl;
    rewrite lookup_insert_eq;
    (destruct (gofmt env _ text) as [formatted|]; [|done]); simpl;
    rewrite lookup_insert_eq; by intros ->.
Qed.

(** A loop that returns has generated the file of every table. *)
Lemma each_table_returns o env tables entries w w' :
  each_table (handle_table o env tables) entries w = (w', Some tt) ->
  Forall (fun entry => is_Some (generated_file o env tables entry)) entries.
Proof.
  revert w. induction entries as [|[name fields] entries IH]; intros w Hrun.
  - constructor.
  - cbn [each_table] in Hrun. unfold mbind at 1, Run_bind at 1 in Hrun.
    destruct (generated_file o env tables (name, fields)) as [c|] eqn:Hc.
    + rewrite (handle_table_Some _ _ _ _ _ _ _ Hc) in Hrun.
      constructor; [by rewrite Hc|]. by eapply IH.
    + pose proof (handle_table_None _ _ _ _ _ w Hc) as Hnone.
      destruct (handle_table _ _ _ _ w) as [w1 r1]. simpl in Hnone.
      by subst r1.
Qed.

Lemma file_entry_names o env tables (entries : list (string * TomlTable)) :
  (file_entry o env tables <$> entries).*1
  = generated_filename <$> entries.*1.
Proof. by rewrite <-!list_fmap_compose. Qed.

(** When every table can be generated the loop returns, and the files
    are those of the tables on top of the ones that were there. *)
Lemma each_table_files o env tables entries w :
  NoDup (entries.*1) ->
  Forall (fun entry => is_Some (generated_file o env tables entry)) entries ->
  exists w',
    each_table (handle_table o env tables) entries w = (w', Some tt) /\
    files w' =
      list_to_map (file_entry o env tables <$> entries) ∪ files w.
Proof.
  revert w. induction entries as [|[name fields] entries IH]; intros w Hnd Hall.
  - exists w. split; [done|]. simpl. by rewrite (left_id_L ∅ (∪)).
  - apply NoDup_cons in Hnd as [Hfresh Hnd].
    apply Forall_cons in Hall as [[c Hc] Hall].
    cbn [each_table]. unfold mbind at 1, Run_bind at 1.
    rewrite (handle_table_Some _ _ _ _ _ _ _ Hc).
    destruct (IH {| files := <[generated_filename name := c]> (files w);
                    log := log w ++ [Handling (generated_filename name);
                             Generated name (generated_filename name)] |}
                Hnd Hall) as (w' & Hrun & Hfiles).
    exists w'. split; [done|]. rewrite Hfiles. cbn [files].
    rewrite fmap_cons.
    assert (file_entry o env tables (name, fields)
            = (generated_filename name, c)) as ->
      by (unfold file_entry; simpl; by rewrite Hc).
    rewrite list_to_map_cons, <-insert_union_l. symmetry.
    apply insert_union_r.
    apply not_elem_of_list_to_map_1. rewrite file_entry_names.
    intros (name' & Heq & Hin)%list_elem_of_fmap.
    apply generated_filename_inj in Heq. by subst.
Qed.

(** A run that returns leaves the same files whatever the iteration
    order. *)
Lemma main_order o1 o2 env tables w w1 :
  main o1 env (Some tables) w = (w1, Some tt) ->
  exists w2, main o2 env (Some tables) w = (w2, Some tt) /\
             files w2 = files w1.
Proof.
  unfold main. unfold mbind at 1 3, Run_bind at 1 3, mret, Run_ret.
  unfold mbind at 1 2, Run_bind at 1 2, remove_file.
  set (w0 := {| files := delete "models/*_generated.go" (files w);
                log := log w |}).
  intros Hrun1.
  pose proof (each_table_returns _ _ _ _ _ _ Hrun1) as Hall1.
  destruct (each_table_files o1 env tables (range_of o1 tables) w0)
    as (w1' & Hrun1' & Hfiles1); [apply range_of_NoDup|done|].
  rewrite Hrun1 in Hrun1'. injection Hrun1' as <-.
  assert (range_of o1 tables ≡ₚ range_of o2 tables) as Hperm
    by by rewrite !range_of_perm.
  destruct (each_table_files o2 env tables (range_of o2 tables) w0)
    as (w2 & Hrun2 & Hfiles2); [apply range_of_NoDup| |].
  { rewrite <-Hperm. eapply Forall_impl; [exact Hall1|].
    intros entry. simpl. by rewrite (generated_file_order o1 o2). }
  exists w2. split; [done|]. rewrite Hfiles1, Hfiles2. f_equal.
  transitivity
    (list_to_map (file_entry o2 env tables <$> range_of o1 tables)
     : gmap string string).
  - apply list_to_map_proper.
    + rewrite file_entry_names. apply (NoDup_fmap_2 _), range_of_NoDup.
    + by rewrite Hperm.
  - f_equal. apply list_fmap_ext. intros _ entry _. unfold file_entry.
    by rewrite (generated_file_order o1 o2).
Qed.

(** C4, as stated, fails: a run that ends in [log.Fatal] stops at the
    first table that fails, in iteration order, so what has been generated
    by then depends on that order.  In the schema with the tables [users]
    and the unnamed one, the file of [users] is written when [users] comes
    first and is not when the unnamed table does. *)
Lemma failed_run_depends_on_map_order :
  let users :=
    TableFromToml trie_order unnamed_schema "users" {["id" := "int"]} in
  let r1 := main trie_order quiet_env (Some unnamed_schema) empty_world in
  let r2 := main reverse_order quiet_env (Some unnamed_schema) empty_world in
  (range_of trie_order unnamed_schema).*1 = ["users"; EmptyString] /\
  (range_of reverse_order unnamed_schema).*1 = [EmptyString; "users"] /\
  exit_status r1 = 1%Z /\
  exit_status r2 = 1%Z /\
  files r1.1 !! "models/users_generated.go"
    = Some (Execute trie_order users).1 /\
  files r2.1 !! "models/users_generated.go" = None /\
  files r1.1 <> files r2.1.
Proof.
  do 6 (split; [vm_compute; reflexivity|]).
  intros Heq.
  apply (f_equal (fun m => m !! "models/users_generated.go")) in Heq.
  vm_compute in Heq. discriminate Heq.
Qed.

(** C4, amended: the clause builders enumerate the column set in
    lexicographic order of the names, each column once, whatever order the
    map is ranged over; consequently the text rendered for a table of a
    schema is the same under any two iteration orders, and a run of [main]
    that returns leaves the same files under both. *)
Theorem rendering_independent_of_map_order (o1 o2 : MapOrder)
    (keys : TomlTable) (sep structName : string)
    (tables : TomlTables) (name : string) (t : TomlTable) :
  (StronglySorted String.le (sortKeys o1 keys) /\
   NoDup (sortKeys o1 keys) /\
   forall c, c ∈ sortKeys o1 keys <-> is_Some (keys !! c)) /\
  (JoinCondition o1 keys sep =
     strings_Join ((fun c => c +:+ " = ?") <$> sortKeys o1 keys) sep /\
   JoinArguments o1 keys structName =
     strings_Join (argument structName <$> sortKeys o1 keys) ", ") /\
  (sortKeys o1 keys = sortKeys o2 keys /\
   JoinCondition o1 keys sep = JoinCondition o2 keys sep /\
   JoinArguments o1 keys structName = JoinArguments o2 keys structName) /\
  Execute o1 (TableFromToml o1 tables name t) =
  Execute o2 (TableFromToml o2 tables name t) /\
  forall (env : Env) (w w1 : World),
    main o1 env (Some tables) w = (w1, Some tt) ->
    exists w2, main o2 env (Some tables) w = (w2, Some tt) /\
               files w2 = files w1.
Proof.
  repeat split.
  - rewrite sortKeys_columns. apply columns_sorted.
  - rewrite sortKeys_columns. apply columns_NoDup.
  - rewrite sortKeys_columns. apply columns_elem.
  - rewrite sortKeys_columns. apply columns_elem.
  - by rewrite JoinCondition_columns, sortKeys_columns.
  - by rewrite JoinArguments_columns, sortKeys_columns.
  - apply sortKeys_order.
  - apply JoinCondition_order.
  - apply JoinArguments_order.
  - by rewrite (TableFromToml_order o1 o2), (Execute_order o1 o2).
  - intros env w w1. apply main_order.
Qed.

Lemma rendering_independent_of_map_order_witness :
  (range_of trie_order blog_schema).*1 <>
  (range_of reverse_order blog_schema).*1 /\
  (main trie_order quiet_env (Some blog_schema) empty_world).2 = Some tt /\
  exists w2,
    main reverse_order quiet_env (Some blog_schema) empty_world
      = (w2, Some tt) /\
    files w2 =
    files (main trie_order quiet_env (Some blog_schema) empty_world).1.
Proof.
  split; [vm_compute; discriminate|]. split; [reflexivity|].
  destruct (rendering_independent_of_map_order trie_order reverse_order
              ∅ EmptyString EmptyString blog_schema EmptyString ∅)
    as (_ & _ & _ & _ & Hmain).
  apply (Hmain quiet_env empty_world). reflexivity.
Defined.

(** * Further properties of the generator *)

(** ** Naming *)

(** X1: [FieldsWithoutID] returns the fields without the entry [id] and
    with every other entry unchanged, for every iteration order. *)
Theorem FieldsWithoutID_drops_id (o : MapOrder) (t : Table) :
  FieldsWithoutID o t !! "id" = None /\
  (forall column, column <> "id" ->
     FieldsWithoutID o t !! column = Fields t !! column) /\
  FieldsWithoutID o t ⊆ Fields t /\
  (Fields t !! "id" = None -> FieldsWithoutID o t = Fields t).
Proof.
  rewrite FieldsWithoutID_delete. split; [apply lookup_delete_eq|].
  split; [intros column Hne; by apply lookup_delete_ne|].
  split; [apply delete_subseteq|]. apply delete_id.
Qed.

(** X2: [ForeignKey] fails exactly on the strings of fewer than three
    bytes; on a longer one it drops the last three bytes, whatever they
    are, and exports the rest. *)
Theorem ForeignKey_defined (keyID : string) :
  (ForeignKey keyID = None <-> String.length keyID < 3) /\
  (forall base a b c,
     keyID = base +:+ String a (String b (String c EmptyString)) ->
     ForeignKey keyID = Some (SnakeToGocase base true)).
Proof.
  split.
  - unfold ForeignKey. destruct (slice_to _ _) eqn:Hslice.
    + split; [done|]. intros Hlen.
      assert (slice_to keyID (len keyID - len "_id") = None) as Hnone.
      { apply slice_to_None. left. unfold len. simpl. lia. }
      congruence.
    + split; [|done]. intros _. apply slice_to_None in Hslice.
      unfold len in Hslice. simpl in Hslice. lia.
  - intros base a b c ->. unfold ForeignKey.
    pose proof (slice_to_app base (String a (String b (String c EmptyString))))
      as Hslice.
    change (len (String a (String b (String c EmptyString))))
      with (len "_id") in Hslice.
    by rewrite Hslice.
Qed.

(** ** Key inference *)

(** X3: the table derived by [TableFromToml] carries the given name and
    fields, and both key sets are made of entries of the fields: every key
    column is a column of the table, with its type. *)
Theorem TableFromToml_keys_are_fields (o : MapOrder) (tables : TomlTables)
    (name : string) (t : TomlTable) :
  let table := TableFromToml o tables name t in
  Name table = name /\ Fields table = t /\
  PrimaryKeys table ⊆ Fields table /\
  ForeignKeys table ⊆ Fields table.
Proof.
  unfold TableFromToml. rewrite key_loop_range.
  destruct (t !! "id") as [v|] eqn:Hid; simpl.
  - split; [done|]. split; [done|].
    split; [by apply map_singleton_subseteq_l|apply map_filter_subseteq].
  - split; [done|]. split; [done|]. split; apply map_filter_subseteq.
Qed.

(** X4: for every table, with or without [id], the foreign keys are
    exactly the columns that end with [_id] and name a table of the
    schema; the column [id] is never one of them, so with an [id] column
    no column is both primary and foreign key. *)
Theorem ForeignKeys_every_table (o : MapOrder) (tables : TomlTables)
    (name : string) (t : TomlTable) :
  let table := TableFromToml o tables name t in
  (forall column typ,
     ForeignKeys table !! column = Some typ <->
     t !! column = Some typ /\
     exists base, column = base +:+ "_id" /\
                  is_Some (tables !! (base +:+ "s"))) /\
  ForeignKeys table !! "id" = None /\
  (is_Some (t !! "id") -> PrimaryKeys table ##ₘ ForeignKeys table).
Proof.
  simpl. rewrite ForeignKeys_TableFromToml.
  assert (filter (fun entry => references_table tables entry.1) t !! "id"
          = None) as Hid.
  { apply map_lookup_filter_None. right. intros typ _ (base & Heq & _).
    simpl in Heq. apply (f_equal String.length) in Heq.
    rewrite string_length_app in Heq. simpl in Heq. lia. }
  split; [|split; [done|]].
  - intros column typ. by rewrite map_lookup_filter_Some.
  - intros [v Hv]. unfold TableFromToml. rewrite key_loop_range, Hv. simpl.
    by apply map_disjoint_singleton_l.
Qed.

(** X5: the derived primary key is empty exactly when the table has no
    column [id] and none of its columns is a foreign key of the schema. *)
Theorem PrimaryKeys_empty_iff (o : MapOrder) (tables : TomlTables)
    (name : string) (t : TomlTable) :
  PrimaryKeys (TableFromToml o tables name t) = ∅ <->
  t !! "id" = None /\
  forall column base,
    is_Some (t !! column) -> column = base +:+ "_id" ->
    tables !! (base +:+ "s") = None.
Proof.
  unfold TableFromToml. rewrite key_loop_range.
  destruct (t !! "id") as [v|] eqn:Hid; simpl.
  - split; [|by intros [? _]]. intros Hpk.
    apply (f_equal (fun m => m !! "id")) in Hpk.
    by rewrite lookup_singleton_eq, lookup_empty in Hpk.
  - rewrite map_empty_filter. split.
    + intros Hnone. split; [done|]. intros column base [typ Hc] -> .
      destruct (tables !! _) eqn:Hs; [|done].
      destruct (Hnone _ _ Hc). exists base. eauto.
    + intros [_ Hnone] column typ Hc (base & Heq & Hs). simpl in Heq.
      rewrite (Hnone column base) in Hs by eauto. by destruct Hs.
Qed.

(** ** Rendered files *)

Lemma columns_singleton k v : columns {[ k := v ]} = [k].
Proof. unfold columns. by rewrite map_to_list_singleton. Qed.

(** Execute the file template of a table whose struct name and foreign
    key names are known. *)
Ltac run_file Hname Hfks :=
  unfold Execute, FileTemplate, TableTemplate, UpsertTemplate,
    UpdateOrInsertTemplate;
  rewrite Hname;
  repeat first
    [ apply (runs_fk_getters _ _ Hfks) | progress run_template ].

Section rendered.
Context (o : MapOrder) (T : Table) (sname : string).
Hypothesis Hname : StructName (Name T) = Some sname.
Hypothesis Hfks : forall fk fktype,
  ForeignKeys T !! fk = Some fktype -> is_Some (ForeignKey fk).

Lemma Execute_key_statements :
  exists text, Execute o T = (text, Some tt) /\
    strings_Contains text
      (cat [
         "    if err := db.Get(&result, "; DQ; "SELECT * FROM "; Name T;
         " WHERE ";
         strings_Join
           ((fun c => c +:+ " = ?") <$> columns (PrimaryKeys T)) " AND ";
         DQ; ", ";
         strings_Join (param <$> columns (PrimaryKeys T)) ", ";
         "); err != nil {" ]) = true /\
    strings_Contains text
      (cat [
         "    _, err := db.Exec("; DQ; "DELETE FROM "; Name T;
         " WHERE ";
         strings_Join
           ((fun c => c +:+ " = ?") <$> columns (PrimaryKeys T)) " AND ";
         DQ; ", ";
         strings_Join (argument "r" <$> columns (PrimaryKeys T)) ", ";
         ")"; LF ]) = true.
Proof.
  eexists. split; [run_file Hname Hfks|].
  rewrite !JoinCondition_columns, !JoinArguments_columns, ?Marks_size.
  change (argument EmptyString) with param.
  split.
  - locate ltac:(slice_from 0 40 10).
  - locate ltac:(slice_from 0 40 11).
Qed.

Lemma Execute_struct_fields column typ :
  Fields T !! column = Some typ ->
  exists text, Execute o T = (text, Some tt) /\
    strings_Contains text
      (cat [LF; "    "; field column; " "; typ; " "; TICK; "db:"; DQ; column;
            DQ; TICK]) = true.
Proof.
  intros Hin%template_range_elem.
  eexists. split; [run_file Hname Hfks|].
  locate ltac:(
    eapply Contains_cat_fmap; [exact Hin|]; apply Contains_refl).
Qed.

Lemma Execute_update_or_insert :
  Upsert T = false ->
  Fields T !! "id" = Some "int" ->
  PrimaryKeys T = {[ "id" := "int" ]} ->
  let others := delete "id" (Fields T) in
  exists text, Execute o T = (text, Some tt) /\
    strings_Contains text
      (cat [
         "    if r.ID == 0 {"; LF;
         "        "; LF;
         "        res, err := db.Exec("; DQ; "INSERT INTO "; Name T;
         "("; strings_Join (columns others) ", ";
         ") VALUES ("; strings_Join (replicate (size others) "?") ", ";
         ")"; DQ; ", ";
         strings_Join (argument "r" <$> columns others) ", "; ")"; LF;
         "        if err != nil {"; LF;
         "            return errors.WithStack(err)"; LF;
         "        }"; LF;
         "        id, err := res.LastInsertId()"; LF;
         "        if err != nil {"; LF;
         "            return errors.WithStack(err)"; LF;
         "        }"; LF;
         "        r.ID = int(id)"; LF;
         "        return nil"; LF;
         "    }" ]) = true /\
    strings_Contains text
      (cat [
         "    _, err := db.Exec("; DQ; "UPDATE "; Name T;
         " SET ";
         strings_Join ((fun c => c +:+ " = ?") <$> columns (Fields T)) ", ";
         " WHERE id = ?"; DQ; ","; LF;
         "                      ";
         strings_Join (argument "r" <$> columns (Fields T)) ", ";
         ", r.ID)"; LF ]) = true.
Proof.
  intros Hupsert Hid Hpk others. subst others. eexists. split.
  { unfold Execute, FileTemplate, TableTemplate, UpdateOrInsertTemplate.
    rewrite Hname, Hupsert. unfold index. rewrite Hid.
    change (String.eqb "int" "int") with true. cbv iota.
    repeat first
      [ apply (runs_fk_getters _ _ Hfks) | progress run_template ]. }
  rewrite (FieldsWithoutID_delete o T).
  rewrite !JoinCondition_columns, !JoinArguments_columns, !Marks_size.
  rewrite Hpk, columns_singleton.
  replace (argument "-" <$> columns (delete "id" (Fields T)))
    with (columns (delete "id" (Fields T)))
    by (symmetry; apply list_fmap_id).
  change (strings_Join ((fun c => c +:+ " = ?") <$> ["id"]) " AND ")
    with "id = ?".
  change (strings_Join (argument "r" <$> ["id"]) ", ") with "r.ID".
  split.
  - locate ltac:(slice_from 0 40 37).
  - locate ltac:(slice_from 0 40 17).
Qed.
End rendered.

Lemma TableFromToml_int_id o tables name (t : TomlTable) :
  t !! "id" = Some "int" ->
  TableFromToml o tables name t =
  {| Name := name; Upsert := false; Fields := t;
     PrimaryKeys := {[ "id" := "int" ]};
     ForeignKeys := filter (fun entry => references_table tables entry.1) t |}.
Proof. intros Hid. unfold TableFromToml. by rewrite key_loop_range, Hid. Qed.

Lemma Fields_TableFromToml o tables name (t : TomlTable) :
  Fields (TableFromToml o tables name t) = t.
Proof.
  unfold TableFromToml. destruct (fold_left _ _ _). by destruct (t !! "id").
Qed.

(** X6: a table with an integer [id] is rendered with the
    insert-or-update template, and the insert branch is always there: when
    [r.ID] is zero the record is inserted with every column but [id], one
    placeholder and one argument per column in sorted order, and the
    assigned identifier is written back to [r.ID]; otherwise every column,
    [id] included, is updated in the row [WHERE id = ?], with [r.ID] as
    the last argument. *)
Theorem update_or_insert_statements (o : MapOrder) (tables : TomlTables)
    (name : string) (t : TomlTable) (sname : string) :
  StructName name = Some sname ->
  t !! "id" = Some "int" ->
  let others := delete "id" t in
  exists text,
    Execute o (TableFromToml o tables name t) = (text, Some tt) /\
    strings_Contains text
      (cat [
         "    if r.ID == 0 {"; LF;
         "        "; LF;
         "        res, err := db.Exec("; DQ; "INSERT INTO "; name;
         "("; strings_Join (columns others) ", ";
         ") VALUES ("; strings_Join (replicate (size others) "?") ", ";
         ")"; DQ; ", ";
         strings_Join (argument "r" <$> columns others) ", "; ")"; LF;
         "        if err != nil {"; LF;
         "            return errors.WithStack(err)"; LF;
         "        }"; LF;
         "        id, err := res.LastInsertId()"; LF;
         "        if err != nil {"; LF;
         "            return errors.WithStack(err)"; LF;
         "        }"; LF;
         "        r.ID = int(id)"; LF;
         "        return nil"; LF;
         "    }" ]) = true /\
    strings_Contains text
      (cat [
         "    _, err := db.Exec("; DQ; "UPDATE "; name;
         " SET ";
         strings_Join ((fun c => c +:+ " = ?") <$> columns t) ", ";
         " WHERE id = ?"; DQ; ","; LF;
         "                      ";
         strings_Join (argument "r" <$> columns t) ", ";
         ", r.ID)"; LF ]) = true.
Proof.
  intros Hname Hid others.
  assert (forall fk fktype,
    ForeignKeys (TableFromToml o tables name t) !! fk = Some fktype ->
    is_Some (ForeignKey fk)) as Hfks by apply ForeignKeys_can_be_named.
  revert Hfks. rewrite (TableFromToml_int_id o tables name t Hid).
  intros Hfks.
  pose proof (fun H => Execute_update_or_insert o _ sname H Hfks) as Hrun.
  exact (Hrun Hname eq_refl Hid eq_refl).
Qed.

Lemma update_or_insert_statements_witness :
  StructName "posts" = Some "Post" /\
  posts !! "id" = Some "int" /\
  exists text,
    Execute trie_order (TableFromToml trie_order blog_schema "posts" posts)
      = (text, Some tt) /\
    strings_Contains text
      (cat [
         "        res, err := db.Exec("; DQ;
         "INSERT INTO posts(body, user_id) VALUES (?, ?)"; DQ;
         ", r.Body, r.UserID)"; LF]) = true /\
    strings_Contains text
      (cat [
         "    _, err := db.Exec("; DQ;
         "UPDATE posts SET body = ?, id = ?, user_id = ? WHERE id = ?";
         DQ; ","; LF;
         "                      r.Body, r.ID, r.UserID, r.ID)"; LF ]) = true.
Proof.
  split; [reflexivity|]. split; [reflexivity|].
  destruct (update_or_insert_statements trie_order blog_schema "posts" posts
              "Post") as (text & Hrun & _ & _); [reflexivity..|].
  exists text. split; [exact Hrun|].
  apply (f_equal fst) in Hrun. simpl in Hrun. subst text.
  split; vm_compute; reflexivity.
Defined.

(** X7: the primary-key getter and [Delete] of every rendered table
    select the row by the same clause, one [column = ?] per primary-key
    column joined by [AND], and pass one argument per column in the same
    sorted order: the parameters for the getter, the fields of [r] for
    [Delete]. *)
Theorem key_statements (o : MapOrder) (tables : TomlTables)
    (name : string) (t : TomlTable) (sname : string) :
  StructName name = Some sname ->
  let T := TableFromToml o tables name t in
  exists text, Execute o T = (text, Some tt) /\
    strings_Contains text
      (cat [
         "    if err := db.Get(&result, "; DQ; "SELECT * FROM "; name;
         " WHERE ";
         strings_Join
           ((fun c => c +:+ " = ?") <$> columns (PrimaryKeys T)) " AND ";
         DQ; ", ";
         strings_Join (param <$> columns (PrimaryKeys T)) ", ";
         "); err != nil {" ]) = true /\
    strings_Contains text
      (cat [
         "    _, err := db.Exec("; DQ; "DELETE FROM "; name;
         " WHERE ";
         strings_Join
           ((fun c => c +:+ " = ?") <$> columns (PrimaryKeys T)) " AND ";
         DQ; ", ";
         strings_Join (argument "r" <$> columns (PrimaryKeys T)) ", ";
         ")"; LF ]) = true.
Proof.
  intros Hname T.
  destruct (Execute_key_statements o T sname) as (text & Hrun & Hget & Hdel).
  - subst T. by rewrite Name_TableFromToml.
  - subst T. apply ForeignKeys_can_be_named.
  - exists text. subst T. by rewrite Name_TableFromToml in Hget, Hdel.
Qed.

Lemma key_statements_witness :
  StructName "enrollments" = Some "Enrollment" /\
  exists text,
    Execute reverse_order
      (TableFromToml reverse_order school_schema "enrollments" enrollments)
      = (text, Some tt) /\
    strings_Contains text
      (cat [
         "SELECT * FROM enrollments WHERE course_id = ? AND user_id = ?";
         DQ; ", courseID, userID); err != nil {" ]) = true /\
    strings_Contains text
      (cat [
         "DELETE FROM enrollments WHERE course_id = ? AND user_id = ?";
         DQ; ", r.CourseID, r.UserID)"; LF ]) = true.
Proof.
  split; [reflexivity|].
  destruct (key_statements reverse_order school_schema "enrollments"
              enrollments "Enrollment") as (text & Hrun & _ & _);
    [reflexivity|].
  exists text. split; [exact Hrun|].
  apply (f_equal fst) in Hrun. simpl in Hrun. subst text.
  split; vm_compute; reflexivity.
Defined.

(** X8: the struct of a rendered table has one field per column: the
    exported column name, the column type, and a [db] tag that holds the
    column name as it is in the schema. *)
Theorem struct_has_every_column (o : MapOrder) (tables : TomlTables)
    (name : string) (t : TomlTable) (sname column typ : string) :
  StructName name = Some sname ->
  t !! column = Some typ ->
  exists text,
    Execute o (TableFromToml o tables name t) = (text, Some tt) /\
    strings_Contains text
      (cat [LF; "    "; SnakeToGocase column true; " "; typ; " "; TICK;
            "db:"; DQ; column; DQ; TICK]) = true.
Proof.
  intros Hname Hcolumn.
  apply (Execute_struct_fields o _ sname).
  - by rewrite Name_TableFromToml.
  - apply ForeignKeys_can_be_named.
  - by rewrite Fields_TableFromToml.
Qed.

Lemma struct_has_every_column_witness :
  StructName "posts" = Some "Post" /\
  posts !! "user_id" = Some "int" /\
  exists text,
    Execute trie_order (TableFromToml trie_order blog_schema "posts" posts)
      = (text, Some tt) /\
    strings_Contains text
      (cat [LF; "    "; SnakeToGocase "user_id" true; " "; "int"; " "; TICK;
            "db:"; DQ; "user_id"; DQ; TICK]) = true.
Proof.
  split; [reflexivity|]. split; [reflexivity|].
  apply (struct_has_every_column trie_order blog_schema "posts" posts "Post");
    reflexivity.
Defined.

(** X9: rendering a derived table fails for the empty table name and for
    no other; when it fails, what has been written is the file header, up
    to the import block, and nothing of the table. *)
Theorem Execute_fails_iff_unnamed (o : MapOrder) (tables : TomlTables)
    (name : string) (t : TomlTable) :
  ((Execute o (TableFromToml o tables name t)).2 = None <->
   name = EmptyString) /\
  (Execute o (TableFromToml o tables EmptyString t)).1 =
  cat [LF;
       "// Generated by "; DQ;
       "git.nkagami.me/natsukagami/kjudge/models/generate"; DQ;
       ". DO NOT EDIT."; LF; LF;
       "package models"; LF; LF;
       "import ("; LF;
       "    "; DQ; "database/sql"; DQ; LF;
       "    "; DQ; "github.com/pkg/errors"; DQ; LF;
       "    "; DQ; "git.nkagami.me/natsukagami/kjudge/db"; DQ; LF;
       ")"; LF; LF; LF].
Proof.
  split; [apply Execute_error_iff|].
  unfold Execute, FileTemplate, TableTemplate.
  rewrite Name_TableFromToml. reflexivity.
Qed.

(** ** Runs of [main] *)



(** X11: [main] returns (exit status 0) exactly when the file of every
    table of the schema can be generated: it can be created, the template
    executes, the file takes the text and closes, and [go fmt] and
    [goimports] succeed.  Then every table has its file, holding what
    [goimports] left. *)
Theorem main_returns_iff (o : MapOrder) (env : Env) (tables : TomlTables)
    (w : World) :
  let r := main o env (Some tables) w in
  (exit_status r = 0%Z <->
   forall name fields, tables !! name = Some fields ->
     is_Some (generated_file o env tables (name, fields))) /\
  (exit_status r = 0%Z ->
   forall name fields, tables !! name = Some fields ->
     files r.1 !! generated_filename name
     = generated_file o env tables (name, fields)).
Proof.
  rewrite main_decoded.
  set (w0 := {| files := delete "models/*_generated.go" (files w);
                log := log w |}).
  assert ((forall name fields, tables !! name = Some fields ->
             is_Some (generated_file o env tables (name, fields))) <->
          Forall (fun entry => is_Some (generated_file o env tables entry))
            (range_of o tables)) as Hall.
  { rewrite Forall_forall. split.
    - intros H [name fields] Hin. apply H. by apply range_of_entry in Hin.
    - intros H name fields Hin. apply (H (name, fields)).
      by apply range_of_entry. }
  simpl. rewrite Hall. clear Hall.
  destruct (each_table _ _ w0) as [w' [[]|]] eqn:Hrun; unfold exit_status;
    simpl.
  - pose proof (each_table_returns _ _ _ _ _ _ Hrun) as Hall.
    split; [done|]. intros _ name fields Hin.
    destruct (each_table_files o env tables (range_of o tables) w0)
      as (w'' & Hrun' & Hfiles); [apply range_of_NoDup|done|].
    rewrite Hrun in Hrun'. injection Hrun' as <-. rewrite Hfiles.
    apply (range_of_entry o) in Hin.
    rewrite Forall_forall in Hall. destruct (Hall _ Hin) as [c Hc].
    rewrite Hc. apply lookup_union_Some_l.
    apply elem_of_list_to_map_1.
    + rewrite file_entry_names. apply (NoDup_fmap_2 _), range_of_NoDup.
    + apply list_elem_of_fmap. exists (name, fields). split; [|done].
      unfold file_entry. simpl. by rewrite Hc.
  - split; [|done]. split; [done|]. intros Hall.
    destruct (each_table_files o env tables (range_of o tables) w0)
      as (w'' & Hrun' & _); [apply range_of_NoDup|done|].
    congruence.
Qed.

(** ** Identifiers and placeholders *)

Lemma Contains_underscore s :
  strings_Contains s "_" = negb (no_underscore s).
Proof.
  induction s as [|c s IH]; [done|].
  change (strings_Contains (String c s) "_")
    with (String.prefix "_" (String c s) || strings_Contains s "_").
  rewrite IH. cbn [String.prefix no_underscore].
  destruct (ascii_dec "_" c) as [<-|Hne].
  - rewrite Ascii.eqb_refl. by destruct s.
  - assert (Ascii.eqb c "_" = false) as ->; [|done].
    apply Ascii.eqb_neq. congruence.
Qed.

Lemma no_underscore_app s t :
  no_underscore (s +:+ t) = no_underscore s && no_underscore t.
Proof.
  induction s as [|c s IH]; [done|].
  rewrite string_app_cons. simpl. rewrite IH. by rewrite andb_assoc.
Qed.

Lemma no_underscore_cat l :
  Forall (fun s => no_underscore s = true) l -> no_underscore (cat l) = true.
Proof.
  induction 1 as [|s l Hs _ IH]; [done|].
  by rewrite cat_cons, no_underscore_app, Hs, IH.
Qed.

Lemma no_underscore_Split s :
  Forall (fun part => no_underscore part = true) (strings_Split s "_").
Proof.
  induction s as [|c s IH]; [by repeat constructor|].
  simpl. destruct (Ascii.eqb c "_") eqn:Hc.
  - by constructor.
  - destruct (strings_Split s "_") as [|part parts].
    + repeat constructor. simpl. by rewrite Hc.
    + apply Forall_cons in IH as [Hpart Hparts]. constructor; [|done].
      simpl. by rewrite Hc.
Qed.

Lemma is_ascii_Split s sep :
  is_ascii s = true ->
  Forall (fun part => is_ascii part = true) (strings_Split s sep).
Proof.
  induction s as [|c s IH]; [by repeat constructor|].
  simpl. intros [Hc Hs]%andb_true_iff. specialize (IH Hs).
  destruct (Ascii.eqb c sep).
  - by constructor.
  - destruct (strings_Split s sep) as [|part parts].
    + repeat constructor. simpl. by rewrite Hc.
    + apply Forall_cons in IH as [Hpart Hparts]. constructor; [|done].
      simpl. by rewrite Hc, Hpart.
Qed.

(** Title case makes no underscore in ASCII text. *)
Lemma no_underscore_Title_from prev s :
  is_ascii s = true ->
  no_underscore s = true -> no_underscore (Title_from prev s) = true.
Proof.
  revert prev. induction s as [|r s IH]; intros prev; [done|].
  cbn [is_ascii no_underscore].
  intros [Hascii Hrest]%andb_true_iff [Hr Hs]%andb_true_iff.
  specialize (IH r Hrest Hs).
  destruct r as [b0 b1 b2 b3 b4 b5 b6 b7].
  destruct b0, b1, b2, b3, b4, b5, b6, b7;
    try discriminate Hascii; try discriminate Hr;
    simpl; destruct (isSeparator prev); simpl; exact IH.
Qed.

Lemma no_underscore_gocase_part export i part :
  is_ascii part = true ->
  no_underscore part = true ->
  no_underscore (gocase_part export i part) = true.
Proof.
  intros Hascii Hpart. unfold gocase_part.
  destruct (_ && _); [done|]. destruct (String.eqb part "id"); [done|].
  by apply no_underscore_Title_from.
Qed.

(** X12: the name [SnakeToGocase] returns for an ASCII string never
    contains an underscore, whatever the flag: every underscore of the
    input is a separator and disappears, and title case makes none. *)
Theorem SnakeToGocase_no_underscore (s : string) (export : bool) :
  is_ascii s = true ->
  strings_Contains (SnakeToGocase s export) "_" = false.
Proof.
  intros Hascii. rewrite Contains_underscore, SnakeToGocase_cat.
  apply negb_false_iff, no_underscore_cat, Forall_forall.
  intros x (i & part & -> & Hi)%elem_of_lookup_imap.
  apply list_elem_of_lookup_2 in Hi.
  pose proof (no_underscore_Split s) as Hall.
  pose proof (is_ascii_Split s "_" Hascii) as Hparts.
  rewrite Forall_forall in Hall, Hparts.
  apply no_underscore_gocase_part; [by apply Hparts|by apply Hall].
Qed.

Lemma SnakeToGocase_no_underscore_witness :
  is_ascii "test_group_id" = true /\
  SnakeToGocase "test_group_id" false = "testGroupID" /\
  strings_Contains (SnakeToGocase "test_group_id" false) "_" = false.
Proof.
  split; [reflexivity|]. split; [reflexivity|].
  apply (SnakeToGocase_no_underscore "test_group_id" false). reflexivity.
Defined.

(** X13: for every iteration order [Marks] writes one placeholder for
    each key that [sortKeys] lists, so the placeholders of a statement and
    the arguments that [JoinArguments] writes for the same map are equally
    many: the number of entries of the map. *)
Theorem Marks_one_per_key (o : MapOrder) (keys : TomlTable)
    (structName : string) :
  Marks o keys = strings_Join ((fun _ => "?") <$> sortKeys o keys) ", " /\
  JoinArguments o keys structName =
    strings_Join (argument structName <$> sortKeys o keys) ", " /\
  length (sortKeys o keys) = size keys.
Proof.
  assert (length (sortKeys o keys) = size keys) as Hlen.
  { rewrite sortKeys_columns, columns_perm, length_fmap.
    apply length_map_to_list. }
  split; [|split; [|done]].
  - rewrite Marks_size, <-Hlen. f_equal. symmetry. by apply const_fmap.
  - by rewrite JoinArguments_columns, sortKeys_columns.
Qed.

(** * Page templates *)

(** The loop over the requirements. *)
Abbreviation resolve_all fuel reqs start :=
  (fold_left (fun acc req => acc ≫= resolveTemplate fuel req) reqs start).

Lemma resolve_all_None fuel reqs : resolve_all fuel reqs None = None.
Proof. by induction reqs. Qed.

Lemma resolveTemplate_S fuel name into :
  resolveTemplate (S fuel) name into =
  (fun into => into ++ [name]) <$>
    match templateList !! name with
    | Some reqs => resolve_all fuel reqs (Some into)
    | None => Some into
    end.
Proof. reflexivity. Qed.

(** Resolving into a list only appends to it. *)
Lemma resolveTemplate_app fuel name into :
  resolveTemplate fuel name into =
  (fun r => into ++ r) <$> resolveTemplate fuel name [].
Proof.
  revert name into. induction fuel as [|fuel IH]; intros name into; [done|].
  assert (forall reqs acc,
    resolve_all fuel reqs (Some (into ++ acc)) =
    (fun r => into ++ r) <$> resolve_all fuel reqs (Some acc)) as Hall.
  { induction reqs as [|req reqs IHreqs]; intros acc; [done|].
    cbn [fold_left mbind option_bind].
    rewrite (IH req (into ++ acc)), (IH req acc).
    destruct (resolveTemplate fuel req []) as [r|]; simpl.
    - by rewrite <-IHreqs, app_assoc.
    - by rewrite !resolve_all_None. }
  rewrite !resolveTemplate_S. destruct (templateList !! name) as [reqs|].
  - specialize (Hall reqs []). rewrite app_nil_r in Hall. rewrite Hall.
    destruct (resolve_all fuel reqs (Some [])) as [r|]; simpl; [|done].
    by rewrite app_assoc.
  - done.
Qed.

(** More fuel does not change a result. *)
Lemma resolveTemplate_fuel_S fuel name into r :
  resolveTemplate fuel name into = Some r ->
  resolveTemplate (S fuel) name into = Some r.
Proof.
  revert name into r. induction fuel as [|fuel IH]; intros name into r; [done|].
  assert (forall reqs acc r',
    resolve_all fuel reqs acc = Some r' ->
    resolve_all (S fuel) reqs acc = Some r') as Hall.
  { induction reqs as [|req reqs IHreqs]; intros acc r'; [done|].
    cbn [fold_left]. destruct acc as [acc|]; cbn [mbind option_bind].
    - destruct (resolveTemplate fuel req acc) as [r1|] eqn:Hreq.
      + rewrite (IH _ _ _ Hreq). apply IHreqs.
      + by rewrite resolve_all_None.
    - by rewrite resolve_all_None. }
  rewrite (resolveTemplate_S (S fuel)), (resolveTemplate_S fuel).
  destruct (templateList !! name) as [reqs|]; [|done].
  destruct (resolve_all fuel reqs (Some into)) as [r'|] eqn:Hreqs; [|done].
  by rewrite (Hall _ _ _ Hreqs).
Qed.

Lemma resolveTemplate_fuel_le fuel fuel' name into r :
  fuel <= fuel' ->
  resolveTemplate fuel name into = Some r ->
  resolveTemplate fuel' name into = Some r.
Proof.
  induction 1 as [|fuel' _ IH]; [done|].
  intros Hr. by apply resolveTemplate_fuel_S, IH.
Qed.

(** X14: on the template list of the repository [resolveTemplate]
    terminates for every name: the requirements are at most two levels
    deep, so a recursion depth of three gives the result, and any larger
    depth gives the same one. *)
Theorem resolveTemplate_terminates (name : string) (into : list string) :
  exists r,
    resolveTemplate 3 name into = Some r /\
    forall fuel, 3 <= fuel -> resolveTemplate fuel name into = Some r.
Proof.
  assert (is_Some (resolveTemplate 3 name [])) as [r Hr].
  { destruct (templateList !! name) as [reqs|] eqn:Hname.
    - apply elem_of_map_to_list in Hname.
      let l := eval vm_compute in (map_to_list templateList) in
        change (map_to_list templateList) with l in Hname.
      repeat (apply elem_of_cons in Hname as [[= -> ->]|Hname];
              [vm_compute; eauto|]).
      by apply elem_of_nil in Hname.
    - rewrite resolveTemplate_S, Hname. simpl. eauto. }
  exists (into ++ r).
  assert (resolveTemplate 3 name into = Some (into ++ r)) as Hinto
    by by rewrite resolveTemplate_app, Hr.
  split; [done|]. intros fuel Hfuel.
  by apply (resolveTemplate_fuel_le 3).
Qed.

Lemma resolveTemplate_own (fuel : nat) (name : string)
    (into r : list string) :
  resolveTemplate fuel name into = Some r ->
  exists own,
    resolveTemplate fuel name [] = Some own /\
    r = into ++ own /\
    last r = Some name /\
    last own = Some name.
Proof.
  rewrite resolveTemplate_app.
  destruct (resolveTemplate fuel name []) as [own|] eqn:Hown; [|done].
  intros [= <-]. exists own. split; [done|]. split; [done|].
  assert (last own = Some name) as Hlast.
  { destruct fuel as [|fuel]; [done|]. rewrite resolveTemplate_S in Hown.
    destruct (match templateList !! name with
              | Some reqs => resolve_all fuel reqs (Some [])
              | None => Some []
              end) as [l|]; [|done].
    injection Hown as <-. apply last_snoc. }
  split; [|done]. destruct own as [|x own] using rev_ind; [done|].
  by rewrite app_assoc, last_snoc in *.
Qed.

(** X15: [resolveTemplate] only appends: the list it returns is the list
    it was given followed by what the name resolves to on its own, and its
    last element is the name itself. *)
Theorem resolveTemplate_appends (fuel : nat) (name : string)
    (into r : list string) :
  resolveTemplate fuel name into = Some r ->
  exists own,
    resolveTemplate fuel name [] = Some own /\
    r = into ++ own /\
    last r = Some name /\
    last own = Some name.
Proof. apply resolveTemplate_own. Qed.

Lemma resolveTemplate_appends_witness :
  resolveTemplate 3 "contests/overview" ["root"]
    = Some ["root"; "user_root"; "contests/root"; "contests/overview"] /\
  exists own,
    resolveTemplate 3 "contests/overview" [] = Some own /\
    ["root"; "user_root"; "contests/root"; "contests/overview"]
      = ["root"] ++ own /\
    last ["root"; "user_root"; "contests/root"; "contests/overview"]
      = Some "contests/overview" /\
    last own = Some "contests/overview".
Proof.
  split; [reflexivity|].
  apply (resolveTemplate_appends 3 "contests/overview" ["root"]).
  reflexivity.
Defined.

Lemma requirements_first_snoc names name :
  requirements_first names ->
  (forall reqs req, templateList !! name = Some reqs -> req ∈ reqs ->
     req ∈ names) ->
  requirements_first (names ++ [name]).
Proof.
  intros Hnames Hname before n after reqs req Heq Hn Hreq.
  destruct after as [|x after _] using rev_ind.
  - apply app_inj_tail in Heq as [<- <-]. by eapply Hname.
  - change (before ++ n :: after ++ [x])
      with (before ++ (n :: after) ++ [x]) in Heq.
    rewrite app_assoc in Heq. apply app_inj_tail in Heq as [-> _].
    by eapply Hnames.
Qed.

Lemma resolveTemplate_requirements_first fuel name into r :
  requirements_first into ->
  resolveTemplate fuel name into = Some r ->
  requirements_first r.
Proof.
  revert name into r. induction fuel as [|fuel IH]; intros name into r; [done|].
  assert (forall reqs acc r',
    requirements_first acc ->
    resolve_all fuel reqs (Some acc) = Some r' ->
    requirements_first r' /\
    (exists ext, r' = acc ++ ext) /\
    forall req, req ∈ reqs -> req ∈ r') as Hall.
  { induction reqs as [|req reqs IHreqs]; intros acc r' Hacc.
    - intros [= <-]. split; [done|]. split; [by exists []; rewrite app_nil_r|].
      by intros req Hin%elem_of_nil.
    - cbn [fold_left mbind option_bind].
      destruct (resolveTemplate fuel req acc) as [r1|] eqn:Hreq;
        [|by rewrite resolve_all_None].
      intros Hrest.
      destruct (IHreqs r1 r' (IH _ _ _ Hacc Hreq) Hrest)
        as (Hr' & [ext ->] & Hin).
      destruct (resolveTemplate_own _ _ _ _ Hreq)
        as (own & _ & -> & Hlast & _).
      split; [done|]. split; [by exists (own ++ ext); rewrite app_assoc|].
      intros req' [->|Hreq']%elem_of_cons; [|by apply Hin].
      apply elem_of_app. left. apply last_Some_elem_of in Hlast. done. }
  intros Hinto. rewrite resolveTemplate_S.
  destruct (templateList !! name) as [reqs|] eqn:Hname.
  - destruct (resolve_all fuel reqs (Some into)) as [r'|] eqn:Hreqs; [|done].
    intros [= <-]. destruct (Hall _ _ _ Hinto Hreqs) as (Hr' & _ & Hin).
    apply requirements_first_snoc; [done|].
    intros reqs' req Hn. rewrite Hname in Hn. injection Hn as <-. apply Hin.
  - intros [= <-]. apply requirements_first_snoc; [done|].
    intros reqs' req Hn. by rewrite Hname in Hn.
Qed.

(** X16: in the list [resolveTemplate] returns every template comes
    after all its requirements, so that templates can be parsed in the
    order of the list. *)
Theorem resolveTemplate_lists_requirements_first (fuel : nat)
    (name : string) (r : list string) :
  resolveTemplate fuel name [] = Some r ->
  requirements_first r /\
  forall reqs req,
    templateList !! name = Some reqs -> req ∈ reqs ->
    exists before, r = before ++ [name] /\ req ∈ before.
Proof.
  intros Hr.
  assert (requirements_first r) as Hfirst.
  { eapply resolveTemplate_requirements_first; [|exact Hr].
    by intros [|??] ????. }
  split; [done|]. intros reqs req Hname Hreq.
  destruct (resolveTemplate_own _ _ _ _ Hr) as (_ & _ & _ & Hlast & _).
  destruct r as [|x before _] using rev_ind; [done|].
  rewrite last_snoc in Hlast. injection Hlast as ->.
  exists before. split; [done|].
  apply (Hfirst before name [] reqs req); done.
Qed.

Lemma resolveTemplate_lists_requirements_first_witness :
  resolveTemplate 3 "admin/user" []
    = Some ["admin/root"; "admin/user_inputs"; "admin/submission_inputs";
            "admin/user"] /\
  requirements_first
    ["admin/root"; "admin/user_inputs"; "admin/submission_inputs";
     "admin/user"].
Proof.
  split; [reflexivity|].
  apply (resolveTemplate_lists_requirements_first 3 "admin/user").
  reflexivity.
Defined.

(** * The admin pages of a user *)

(** Find a call in a list of calls. *)
Ltac call_in :=
  apply elem_of_cons; first [ left; reflexivity | right; call_in ].

Section admin_user.
Context `{UserModel}.
Implicit Types (a : Answers) (id : string).

Ltac handler_cases :=
  unfold UserEdit, UserEdit_in_tx, UserGet, Render, getUser in *;
  repeat (case_match; simplify_eq/=).

(** Find where a list of calls splits around a given call. *)
Ltac split_calls before :=
  repeat (destruct before as [|? before]; simplify_eq/=).

(** Split a membership in a list of calls into its cases. *)
Ltac in_calls Hin :=
  rewrite ?elem_of_cons, ?elem_of_app, ?elem_of_nil in Hin;
  decompose [or] Hin; simplify_eq; try done.

(** X17: [UserEdit] writes a user only after the transaction has begun,
    the stored user was found, the form was read from the request, the
    identifier of the form is that of the stored user, and the form was
    bound without error; the user written is the stored one with the form
    bound to it. *)
Theorem UserEdit_write_guarded a id (u : User) :
  CallWrite u ∈ (UserEdit a id).1 ->
  exists stored form,
    Beginx a = None /\
    GetUser a id = inr stored /\
    c_Bind a = inr form /\
    form_ID (set_IsUpdate form) = user_ID stored /\
    form_Bind (set_IsUpdate form) stored = inr u.
Proof.
  intros Hin. handler_cases; in_calls Hin.
  all: match goal with
       | Hneq : negb (String.eqb _ _) = false |- _ =>
           apply negb_false_iff, String.eqb_eq in Hneq
       end; eauto 10.
Qed.

(** X18: in the calls of [UserEdit] a commit comes right after a write
    that succeeded, and a redirect right after that write and a commit
    that succeeded; the redirect is a 303 to the page of the written
    user. *)
Theorem UserEdit_commit_after_write a id :
  (forall before after,
     (UserEdit a id).1 = before ++ CallCommit :: after ->
     exists earlier u u',
       before = earlier ++ [CallWrite u] /\
       user_Write a u = inr u') /\
  (forall before status url after,
     (UserEdit a id).1 = before ++ CallRedirect status url :: after ->
     Commit a = None /\ status = StatusSeeOther /\
     exists earlier u u',
       before = earlier ++ [CallWrite u; CallCommit] /\
       user_Write a u = inr u' /\
       url = cat ["/admin/users/"; user_ID u']).
Proof.
  split.
  - intros before after Heq. handler_cases; split_calls before.
    all: by exists [CallBeginx; CallGetUser id; CallBind]; eexists _, _.
  - intros before status url after Heq. handler_cases; split_calls before.
    all: split; [done|]; split; [done|].
    all: by exists [CallBeginx; CallGetUser id; CallBind]; eexists _, _.
Qed.

(** X19: once the transaction has begun, [UserEdit] ends with the
    deferred rollback, whatever it returns, and calls it once; when the
    transaction cannot begin nothing else is called and the error is
    returned. *)
Theorem UserEdit_rolls_back a id :
  match Beginx a with
  | Some err => UserEdit a id = ([CallBeginx], Some (Passed err))
  | None =>
      exists calls,
        (UserEdit a id).1 = CallBeginx :: calls ++ [CallRollback] /\
        (CallRollback ∉ calls) /\ (CallBeginx ∉ calls)
  end.
Proof.
  destruct (Beginx a) eqn:Hbegin; unfold UserEdit; rewrite Hbegin; [done|].
  destruct (UserEdit_in_tx a id) as [calls r] eqn:Hcalls.
  exists calls. split; [done|].
  split; intros Hin; handler_cases; in_calls Hin.
Qed.

(** X20: [Render] answers with status 400 exactly when the context
    carries a form error and with 200 otherwise; the page shows the user of
    the context with its submissions, the form of the context when there
    is one, and otherwise the form made from the user, marked as an
    update. *)
Theorem Render_status a (u u' : UserCtx) (status : nat) :
  CallRender status u' ∈ (Render a u).1 ->
  (status = StatusBadRequest <-> is_Some (EditFormError u)) /\
  (status = StatusOK <-> EditFormError u = None) /\
  ctx_User u' = ctx_User u /\
  (exists s, SubmissionsBy a (ctx_User u) = inr s /\
             ctx_Submissions u' = Some s) /\
  EditForm u' =
    Some (default (set_IsUpdate (UserToForm (ctx_User u))) (EditForm u)) /\
  EditFormError u' = EditFormError u.
Proof.
  intros Hin. handler_cases; in_calls Hin; simpl.
  all: repeat split; try done; try (by intros [??]); eauto.
Qed.

End admin_user.

Lemma UserEdit_write_guarded_witness :
  let a := all_well "ada" in
  CallWrite ("ada" : @User plain_users) ∈ (UserEdit a "ada").1 /\
  exists stored form,
    Beginx a = None /\
    GetUser a "ada" = inr stored /\
    c_Bind a = inr form /\
    form_ID (set_IsUpdate form) = user_ID stored /\
    form_Bind (set_IsUpdate form) stored = inr ("ada" : @User plain_users).
Proof.
  assert (CallWrite ("ada" : @User plain_users)
            ∈ (UserEdit (all_well "ada") "ada").1) as Hin
    by (vm_compute; call_in).
  split; [exact Hin|].
  exact (UserEdit_write_guarded (all_well "ada") "ada" _ Hin).
Defined.

(** When nothing fails the user is written, the transaction committed
    and the browser redirected, in this order. *)
Example UserEdit_all_well :
  UserEdit (all_well "ada") "ada" =
  ([CallBeginx; CallGetUser "ada"; CallBind;
    CallWrite ("ada" : @User plain_users); CallCommit;
    CallRedirect StatusSeeOther "/admin/users/ada"; CallRollback],
   None).
Proof. reflexivity. Qed.

(** A form filled for another user is refused, and nothing is written. *)
Example UserEdit_other_id :
  UserEdit (all_well "bob") "ada" =
  ([CallBeginx; CallGetUser "ada"; CallBind; CallRollback],
   Some (BadRequest "cannot change user id")).
Proof. reflexivity. Qed.

Lemma Render_status_witness :
  let a := all_well "ada" in
  let u : @UserCtx plain_users :=
    {| ctx_User := ("ada" : @User plain_users);
       ctx_Submissions := None;
       EditForm := None;
       EditFormError := Some ("name is empty" : @Err plain_users) |} in
  let u' : @UserCtx plain_users :=
    {| ctx_User := ("ada" : @User plain_users);
       ctx_Submissions := Some (tt : @Submissions plain_users);
       EditForm := Some ("ada" : @UserForm plain_users);
       EditFormError := Some ("name is empty" : @Err plain_users) |} in
  CallRender StatusBadRequest u' ∈ (Render a u).1 /\
  (StatusBadRequest = StatusBadRequest <-> is_Some (EditFormError u)) /\
  (StatusBadRequest = StatusOK <-> EditFormError u = None) /\
  ctx_User u' = ctx_User u /\
  (exists s, SubmissionsBy a (ctx_User u) = inr s /\
             ctx_Submissions u' = Some s) /\
  EditForm u' =
    Some (default (set_IsUpdate (UserToForm (ctx_User u))) (EditForm u)) /\
  EditFormError u' = EditFormError u.
Proof.
  intros a u u'.
  assert (CallRender StatusBadRequest u' ∈ (Render a u).1) as Hin
    by (vm_compute; call_in).
  split; [exact Hin|].
  exact (Render_status a u u' StatusBadRequest Hin).
Defined.
